(** * cxprometheus: the engine slot cache and the scan duration metrics

    A shallow embedding of [CxCollector.collect] and
    [CxCollector.setenginescan] of [src/cxprometheus.py], and the
    properties of the reconciliation pass (prune, grow, release, assign)
    and of the duration classification.

    Modelling choices.
    - [self.enginelist] is an [OrderedDict]: an association list in
      insertion order whose keys are pairwise distinct ([dict_ok]).
    - A cache key is the text [str(id) + "_" + str(idx)], which the code
      takes apart again with [split("_")] and [int]; the embedding keeps
      the pair [(id, idx)] that the text encodes.
    - A cache value is the eight-element Python list
      [[eid, ename, econc, escans, eminloc, emaxloc, escanid, estate]],
      a record here; the state strings "Idle", "Queued" and "Scanning"
      are the constructors of [status].
    - JSON integers are [Z]; a timestamp field is a string or null,
      [option string].
    - [datetime.datetime.strptime(_, "%Y-%m-%dT%H:%M:%S.%f").timestamp()]
      belongs to the Python library: it is a parameter [strptime] of the
      duration section, [None] standing for the exception it raises.
      Epoch seconds and minutes are exact rationals ([Q]); the rounding
      of Python floats is not modelled.
    - [time.time()] is read once per scan of the duration loop:
      [clock n] is the reading taken for the scan at position [n]. *)

From stdpp Require Import base list strings pretty.
From Stdlib Require Import Ascii QArith.

Close Scope Q_scope.
Local Open Scope Z_scope.

(** ** Data model *)

Inductive status := Idle | Queued | Scanning.

Global Instance status_eq_dec : EqDecision status.
Proof. solve_decision. Defined.

(** One engine of [cxgetengines]. *)
Record engine := Engine {
  engine_id : Z;
  engine_name : string;
  maxScans : Z;
  minLoc : Z;
  maxLoc : Z }.

(** One scan of [cxgetscansqueue]; [scan_engine] is the id of the
    [engine] member, [None] when that member is null. *)
Record scan := Scan {
  scan_id : Z;
  stage_id : Z;
  scan_engine : option Z;
  dateCreated : option string;
  queuedOn : option string;
  engineStartedOn : option string;
  completedOn : option string }.

(** One value of [self.enginelist], fields in list order 0..7. *)
Record slot := Slot {
  eid : Z;
  ename : string;
  econc : Z;
  escans : string;
  eminloc : string;
  emaxloc : string;
  escanid : Z;
  estate : status }.

Abbreviation key := (Z * Z)%type (only parsing).
Abbreviation cache := (list ((Z * Z) * slot)) (only parsing).

(** Keys of a dictionary are pairwise distinct. *)
Definition dict_ok (c : cache) : Prop := NoDup c.*1.

(** [__init__]: [self.enginelist = collections.OrderedDict()]. *)
Definition enginelist_init : cache := [].

(** [iengine[6] = scanid] and [iengine[7] = scanstatus]. *)
Definition set_escanid (v : Z) (x : slot) : slot :=
  Slot (eid x) (ename x) (econc x) (escans x) (eminloc x) (emaxloc x) v (estate x).
Definition set_estate (v : status) (x : slot) : slot :=
  Slot (eid x) (ename x) (econc x) (escans x) (eminloc x) (emaxloc x) (escanid x) v.

(** [str] on an integer. *)
Definition str (z : Z) : string := pretty z.

(** ** Prune: lines 487-500 *)

(** The inner [for engine in engines] with its [break]. *)
Fixpoint lfound_engine (engines : list engine) (k : key) : bool :=
  match engines with
  | [] => false
  | engine :: rest =>
      if bool_decide (engine_id engine = k.1) && bool_decide (k.2 ≤ maxScans engine)
      then true
      else lfound_engine rest k
  end.

(** [self.enginelist.pop(iengx)]. *)
Definition pop (k : key) (c : cache) : cache := filter (λ kv, kv.1 ≠ k) c.

(** The [while idx >= 0] loop; [n] is [idx + 1], so that the iteration
    run at [S idx] handles index [idx] and the loop stops at [0].
    [list(ikeys)[idx]] out of range would raise; it never is. *)
Fixpoint prune_loop (engines : list engine) (n : nat) (c : cache) : cache :=
  match n with
  | O => c
  | S idx =>
      match c !! idx with
      | Some (iengx, _) =>
          prune_loop engines idx
            (if lfound_engine engines iengx then c else pop iengx c)
      | None => c
      end
  end.

Definition prune (engines : list engine) (c : cache) : cache :=
  prune_loop engines (length c) c.

(** ** Grow: lines 501-517 *)

Definition new_slot (engine : engine) (idx : Z) : slot :=
  Slot (engine_id engine) (engine_name engine) idx (str (maxScans engine))
       (str (minLoc engine)) (str (maxLoc engine)) 0 Idle.

(** One turn of [while idx <= imax]. *)
Definition grow_slot (engine : engine) (c : cache) (idx : Z) : cache :=
  let iengx := (engine_id engine, idx) in
  if bool_decide (iengx ∈ c.*1) then c
  else c ++ [(iengx, new_slot engine idx)].

(** [idx] runs over 1, 2, ..., [imax]; no turn when [imax < 1]. *)
Definition grow_engine (c : cache) (engine : engine) : cache :=
  foldl (grow_slot engine) c (seqZ 1 (maxScans engine)).

Definition grow (engines : list engine) (c : cache) : cache :=
  foldl grow_engine c engines.

(** ** Release: lines 521-538 *)

(** [scanengineid]: the id of the engine member, [0] when it is null. *)
Definition scanengineid (s : scan) : Z := default 0 (scan_engine s).

(** The inner [for scan in scans], which has no [break]. *)
Fixpoint lfound_scan (scans : list scan) (iengine : slot) : bool :=
  match scans with
  | [] => false
  | scan :: rest =>
      (bool_decide (escanid iengine = scan_id scan)
       && bool_decide (3 ≤ stage_id scan ≤ 6)
       && bool_decide (scanengineid scan = eid iengine))
      || lfound_scan rest iengine
  end.

Definition release_slot (scans : list scan) (iengine : slot) : slot :=
  if lfound_scan scans iengine then iengine
  else set_estate Idle (set_escanid 0 iengine).

Definition release (scans : list scan) (c : cache) : cache :=
  prod_map id (release_slot scans) <$> c.

(** ** Assign: lines 540-559 and [setenginescan], lines 396-410 *)

(** A slot of engine [engineid] whose [iengine[6]] is [scanid]. *)
Definition carries (engineid scanid : Z) (kv : (Z * Z) * slot) : Prop :=
  eid kv.2 = engineid ∧ escanid kv.2 = scanid.

Global Instance carries_dec engineid scanid kv : Decision (carries engineid scanid kv).
Proof. unfold carries. apply _. Defined.

(** Each [for ... in self.enginelist.values()] stops at the first value
    that satisfies its test and mutates that value in place. *)
Definition setenginescan (scanid engineid : Z) (scanstatus : status) (c : cache) : cache :=
  match list_find (carries engineid scanid) c with
  | Some (i, _) => alter (prod_map id (set_estate scanstatus)) i c
  | None =>
      match list_find (carries engineid 0) c with
      | Some (i, _) =>
          alter (prod_map id (λ x, set_estate scanstatus (set_escanid scanid x))) i c
      | None => c
      end
  end.

(** [scanenginestatus] of lines 551-556. *)
Definition scanenginestatus (scanstatusid : Z) : status :=
  if bool_decide (scanstatusid = 3) then Queued
  else if bool_decide (4 ≤ scanstatusid) && bool_decide (scanstatusid ≤ 6) then Scanning
  else Idle.

(** The body of [for scan in scans] of line 540. *)
Definition assign_scan (c : cache) (scan : scan) : cache :=
  if bool_decide (0 < scan_id scan) && bool_decide (0 < scanengineid scan) then
    match scanenginestatus (stage_id scan) with
    | Idle => c
    | st => setenginescan (scan_id scan) (scanengineid scan) st c
    end
  else c.

Definition assign (scans : list scan) (c : cache) : cache :=
  foldl assign_scan c scans.

(** ** The reconciliation pass: lines 485-559 *)

Definition reconcile (engines : list engine) (scans : list scan) (c : cache) : cache :=
  assign scans (release scans (grow engines (prune engines c))).

(** The caches the collector can hold: the empty one of [__init__],
    then one more pass at a time, whatever the two snapshots. *)
Inductive reachable : cache → Prop :=
  | reachable_init : reachable enginelist_init
  | reachable_pass engines scans c :
      reachable c → reachable (reconcile engines scans c).

(** ** Engine metric: lines 563-568 *)

Record sample := Sample { labels : list string; value : Q }.

Record metrics := Metrics {
  metric1 : list sample;
  metric2 : list sample;
  metric3 : list sample;
  metric4 : list sample;
  metric5 : list sample }.

Definition state_label (st : status) : string :=
  match st with Idle => "Idle" | Queued => "Queued" | Scanning => "Scanning" end.

Definition engine_sample (iengine : slot) : sample :=
  Sample [str (eid iengine); ename iengine; str (econc iengine); state_label (estate iengine)]
         (if bool_decide (estate iengine = Idle) then 0%Q else 1%Q).

Definition engine_metrics (c : cache) : list sample := (engine_sample ∘ snd) <$> c.

(** ** Scan durations: lines 574-623 *)

(** ["." in thedate]. *)
Fixpoint has_dot (s : string) : bool :=
  match s with
  | EmptyString => false
  | String a rest => bool_decide (a = "."%char) || has_dot rest
  end.

(** [processdatestring]: a value that is not a string (null) is returned
    as it is. *)
Definition processdatestring (thedate : option string) : option string :=
  match thedate with
  | Some s => if has_dot s then Some s else Some (s +:+ ".0")
  | None => None
  end.

(** The labels of a scan sample, lines 578-590: the first engine of the
    list with the id of the scan's engine member, the defaults when the
    member is null or no engine of the list has that id. *)
Fixpoint engine_labels (engines : list engine) (i : Z) : option (list string) :=
  match engines with
  | [] => None
  | engine :: rest =>
      if bool_decide (engine_id engine = i)
      then Some [str (engine_id engine); engine_name engine;
                 str (minLoc engine); str (maxLoc engine)]
      else engine_labels rest i
  end.

Definition default_labels : list string := ["0"; ""; "0"; "999999999"]%string.

Definition scan_labels (engines : list engine) (scan : scan) : list string :=
  str (scan_id scan) ::
  default default_labels (scan_engine scan ≫= engine_labels engines).

(** What one scan adds to the four duration metrics. *)
Record durations := Durations {
  full : option Q;
  pulling : option Q;
  queued : option Q;
  scanning : option Q }.

Section Durations.

(** [datetime.datetime.strptime(s, "%Y-%m-%dT%H:%M:%S.%f").timestamp()],
    [None] when it raises. *)
Variable strptime : string → option Q.

(** [strptime(self.processdatestring(field), ...).timestamp()]; on null
    [strptime] raises as well. *)
Definition parse_date (field : option string) : option Q :=
  processdatestring field ≫= strptime.

(** [try: scanini = ... except: scanini = 0.0]. *)
Definition scanini_of (field : option string) : Q :=
  default 0%Q (parse_date field).

(** The body of the loop of line 574 after the labels; [None] is the
    exception of line 594, which no handler catches. *)
Definition classify (scan : scan) (scannow : Q) : option durations :=
  match parse_date (dateCreated scan) with
  | None => None
  | Some scannew =>
      let scanstatusid := stage_id scan in
      let is_pulling := bool_decide (scanstatusid ∈ [1; 2; 10]) in
      Some
        {| full :=
             if bool_decide (scanstatusid = 10)
                || bool_decide (1 ≤ scanstatusid) && bool_decide (scanstatusid ≤ 6)
             then Some ((scannow - scannew) / 60)%Q else None;
           pulling :=
             if is_pulling then Some ((scannow - scannew) / 60)%Q else None;
           queued :=
             if is_pulling then None
             else if bool_decide (scanstatusid = 3) then
               let scanini := scanini_of (queuedOn scan) in
               if Qlt_le_dec 0 scanini
               then Some ((scannow - scanini) / 60)%Q else None
             else None;
           scanning :=
             if is_pulling then None
             else if bool_decide (scanstatusid = 3) then None
             else if bool_decide (4 ≤ scanstatusid) && bool_decide (scanstatusid ≤ 6) then
               let scanini := scanini_of (engineStartedOn scan) in
               if Qlt_le_dec 0 scanini then
                 let scanend := default scannow (parse_date (completedOn scan)) in
                 Some ((scanend - scanini) / 60)%Q
               else None
             else None |}
  end.

(** [metricN.add_metric(labels, val_time)] for each duration present. *)
Definition add_sample (lbls : list string) (v : option Q) (l : list sample) : list sample :=
  match v with Some q => l ++ [Sample lbls q] | None => l end.

Definition add_durations (lbls : list string) (d : durations) (m : metrics) : metrics :=
  Metrics (metric1 m)
          (add_sample lbls (pulling d) (metric2 m))
          (add_sample lbls (queued d) (metric3 m))
          (add_sample lbls (scanning d) (metric4 m))
          (add_sample lbls (full d) (metric5 m)).

(** The loop of line 574 from position [n] on. *)
Fixpoint scan_metrics (engines : list engine) (clock : nat → Q) (n : nat)
    (scans : list scan) (m : metrics) : option metrics :=
  match scans with
  | [] => Some m
  | scan :: rest =>
      match classify scan (clock n) with
      | None => None
      | Some d =>
          scan_metrics engines clock (S n) rest
            (add_durations (scan_labels engines scan) d m)
      end
  end.

(** [collect] from the two snapshots on: the cache after the pass, and
    the five metrics it yields, [None] when an exception escapes before
    the first [yield]. *)
Definition collect (clock : nat → Q) (engines : list engine) (scans : list scan)
    (c : cache) : cache * option metrics :=
  let c' := reconcile engines scans c in
  (c', scan_metrics engines clock 0 scans (Metrics (engine_metrics c') [] [] [] [])).

End Durations.

(** Readings of the library parser, for a process whose local time zone
    is UTC, on the date strings of the examples below. *)
Definition strptime_utc (s : string) : option Q :=
  if bool_decide (s = "1970-01-01T00:00:00.0"%string) then Some 0%Q
  else if bool_decide (s = "2020-02-01T09:00:00.0"%string) then Some 1580547600%Q
  else if bool_decide (s = "2020-02-01T10:00:00.0"%string) then Some 1580551200%Q
  else None.

(** * The rest of the collector *)

(** ** The REST endpoints: lines 111-117, 167-173 and 214-220 *)

(** [s.startswith(prefix)]. *)
Fixpoint startswith (prefix s : string) : bool :=
  match prefix with
  | EmptyString => true
  | String a p =>
      match s with
      | EmptyString => false
      | String b r => bool_decide (a = b) && startswith p r
      end
  end.

(** [s.endswith('/')]. *)
Fixpoint endswith_slash (s : string) : bool :=
  match s with
  | EmptyString => false
  | String a r =>
      match r with
      | EmptyString => bool_decide (a = "/"%char)
      | String _ _ => endswith_slash r
      end
  end.

(** The first [if]: a host without scheme gets [http://]. *)
Definition with_scheme (sapipath : string) : string :=
  if negb (startswith "http://" sapipath) && negb (startswith "https://" sapipath)
  then "http://" +:+ sapipath
  else sapipath.

(** The second [if]: the path of the service, after one slash. *)
Definition with_path (sapipath apipath : string) : string :=
  if endswith_slash sapipath then sapipath +:+ apipath
  else sapipath +:+ "/" +:+ apipath.

Definition logon_path : string := "cxrestapi/auth/identity/connect/token".
Definition engines_path : string := "cxrestapi/sast/engineServers".
Definition scansqueue_path : string := "cxrestapi/sast/scansQueue".

(** What [requests.post] and [requests.get] give back: an exception, or
    a response with its status code and the JSON of its body, [None] when
    the body does not decode to the expected JSON. *)
Inductive reply (A : Type) : Type :=
  | raised
  | response (status_code : Z) (body : option A).
Arguments raised {A}.
Arguments response {A} status_code body.

(** The JSON of a logon response. *)
Record token_json := TokenJson { token_type : string; access_token : string }.

(** [sresponse.status_code not in [200, 201, 202]] is [negb accepted]. *)
Definition accepted (status_code : Z) : bool :=
  bool_decide (status_code ∈ [200; 201; 202]).

Section Requests.

(** [str.lower], of the Python library. *)
Variable lower : string → string.

Definition sapipath_of (hostname apipath : string) : string :=
  with_path (with_scheme (lower hostname)) apipath.

(** [cxlogon], lines 108-146; [post url username password] is the
    request of line 128, [None] the exception that leaves the function. *)
Definition cxlogon (post : string → string → string → reply token_json)
    (hostname username password : string) : option string :=
  match post (sapipath_of hostname logon_path) username password with
  | raised => None
  | response status_code body =>
      if negb (accepted status_code) then Some ""
      else
        match body with
        | None => None
        | Some sjson =>
            let skeykind :=
              if bool_decide (token_type sjson = "") then "Bearer"
              else token_type sjson in
            let skeyval := access_token sjson in
            if bool_decide (skeyval ≠ "") then Some (skeykind +:+ " " +:+ skeyval)
            else Some ""
        end
  end.

(** [cxgetengines], lines 165-193, and [cxgetscansqueue], lines 212-240:
    [get url apitoken] is the request. The body is [None] when
    [json.loads] raises; a body that is JSON is taken as the list of
    records it holds. A list with an object that lacks a member the code
    reads (a scan without [engine]) is not among the replies of the
    model: it would raise later, inside the loops of [collect]. *)
Definition cxget {A} (apipath : string) (get : string → string → reply (list A))
    (hostname apitoken : string) : option (list A) :=
  match get (sapipath_of hostname apipath) apitoken with
  | raised => None
  | response status_code body =>
      if negb (accepted status_code) then Some [] else body
  end.

Definition cxgetengines := cxget (A:=engine) engines_path.
Definition cxgetscansqueue := cxget (A:=scan) scansqueue_path.

End Requests.

(** ** The token: lines 89-91, 366-394 *)

(** The globals [_token] and [_tokenread]. *)
Record token_state := TokenState { _token : string; _tokenread : Q }.

Definition token_init : token_state := TokenState "" 0%Q.

(** The test of line 373; [now] is the reading of [time.time()] there. *)
Definition needs_logon (now : Q) (ts : token_state) : bool :=
  bool_decide (_token ts = "")
  || Qeq_bool (_tokenread ts) 0
  || (if Qlt_le_dec 1400 (now - _tokenread ts) then true else false).

(** [gettoken]; [now_check] and [now_stamp] are the readings of lines
    373 and 380, [logon] what [cxlogon] gives when it is called. [None]:
    the exception of [cxlogon] leaves, the globals as they were. The body
    runs under [_tokenlock]: one call at a time is what is embedded. *)
Definition gettoken (now_check now_stamp : Q) (logon : option string)
    (ts : token_state) : option (token_state * string) :=
  if needs_logon now_check ts then
    match logon with
    | None => None
    | Some t =>
        Some (TokenState t (if bool_decide (t ≠ "") then now_stamp else _tokenread ts), t)
    end
  else Some (ts, _token ts).

Definition resettoken (ts : token_state) : token_state := TokenState "" 0%Q.

(** ** The configuration: lines 252-328 *)

(** The globals of lines 47-51. *)
Record globals := Globals {
  _hostname : string;
  _username : string;
  _password : string;
  _promport : Z;
  _loglevel : Z }.




(** Lines 273-286, with the levels of the [logging] module. *)
Definition preprocess_loglevel (l : Z) : Z :=
  if bool_decide (l ≤ 0) then 100
  else if bool_decide (l ≤ 10) then 10
  else if bool_decide (l ≤ 20) then 20
  else if bool_decide (l ≤ 30) then 30
  else if bool_decide (l ≤ 40) then 40
  else if bool_decide (l ≤ 50) then 50
  else 100.



(** ** A scrape: [collect] from its first line, lines 437-630 *)

(** The requests of one pass, in the order of the code: the logon of the
    first [gettoken] (when it needs one), the first request for the
    engines, the logon and the request of the second attempt, the request
    for the scans. *)
Record network := Network {
  post1 : string → string → string → reply token_json;
  get_engines1 : string → string → reply (list engine);
  post2 : string → string → string → reply token_json;
  get_engines2 : string → string → reply (list engine);
  get_scans : string → string → reply (list scan) }.

(** The readings of [time.time()] in the two calls of [gettoken] and in
    the loop over the scans. *)
Record clocks := Clocks {
  check1 : Q; stamp1 : Q; check2 : Q; stamp2 : Q; scan_clock : nat → Q }.

Section Scrape.

Variable lower : string → string.
Variable strptime : string → option Q.

(** Lines 455-466: the engines, the token they were asked with and the
    token globals, or the token globals at the exception. *)
Definition fetch_engines (g : globals) (net : network) (clk : clocks)
    (ts : token_state) : token_state + (token_state * string * list engine) :=
  match gettoken (check1 clk) (stamp1 clk)
          (cxlogon lower (post1 net) (_hostname g) (_username g) (_password g)) ts with
  | None => inl ts
  | Some (ts1, apitoken) =>
      match default [] (cxgetengines lower (get_engines1 net) (_hostname g) apitoken) with
      | [] =>
          let ts2 := resettoken ts1 in
          match gettoken (check2 clk) (stamp2 clk)
                  (cxlogon lower (post2 net) (_hostname g) (_username g) (_password g))
                  ts2 with
          | None => inl ts2
          | Some (ts3, apitoken') =>
              match cxgetengines lower (get_engines2 net) (_hostname g) apitoken' with
              | None => inl ts3
              | Some engines => inr (ts3, apitoken', engines)
              end
          end
      | engines => inr (ts1, apitoken, engines)
      end
  end.

(** The whole of [collect]: the token globals and the cache after the
    scrape, and the metrics, [None] when an exception leaves. *)
Definition collect_pass (g : globals) (net : network) (clk : clocks)
    (ts : token_state) (c : cache) : token_state * cache * option metrics :=
  match fetch_engines g net clk ts with
  | inl ts' => (ts', c, None)
  | inr (ts', apitoken, engines) =>
      match cxgetscansqueue lower (get_scans net) (_hostname g) apitoken with
      | None => (ts', c, None)
      | Some scans =>
          let r := collect strptime (scan_clock clk) engines scans c in
          (ts', r.1, r.2)
      end
  end.

End Scrape.

(** ** Notions used in the statements and proofs *)

(** [iengine[6] = scanid; iengine[7] = scanstatus]. *)
Definition claim (scanid : Z) (st : status) (x : slot) : slot :=
  set_estate st (set_escanid scanid x).

(** An entry without its assignment: the key and fields 0..5. *)
Definition frame (kv : (Z * Z) * slot) : (Z * Z) * slot :=
  (kv.1, set_estate Idle (set_escanid 0 kv.2)).

(** The scans for which line 559 calls [setenginescan]. *)
Definition effective (s : scan) : Prop :=
  0 < scan_id s ∧ 0 < scanengineid s ∧ 3 ≤ stage_id s ≤ 6.

Global Instance effective_dec s : Decision (effective s).
Proof. unfold effective. apply _. Defined.

(** The position [setenginescan] mutates, if any. *)
Definition hit (scanid engineid : Z) (c : cache) : option nat :=
  match list_find (carries engineid scanid) c with
  | Some (i, _) => Some i
  | None => fst <$> list_find (carries engineid 0) c
  end.

Definition target (s : scan) (c : cache) : option nat :=
  if decide (effective s) then hit (scan_id s) (scanengineid s) c else None.

(** A slot whose assignment the scan list backs, or that is free. *)
Definition settled (scans : list scan) (kv : (Z * Z) * slot) : Prop :=
  lfound_scan scans kv.2 = true ∨ (escanid kv.2 = 0 ∧ estate kv.2 = Idle).

(** What holds of every entry of a cache the collector can hold. *)
Definition slot_inv (kv : (Z * Z) * slot) : Prop :=
  eid kv.2 = kv.1.1 ∧ econc kv.2 = kv.1.2 ∧ 1 ≤ kv.1.2
  ∧ (escanid kv.2 = 0 → estate kv.2 = Idle)
  ∧ (escanid kv.2 ≠ 0 → 0 < eid kv.2 ∧ 0 < escanid kv.2).

(** No two entries of one engine carry the same nonzero scan id. *)
Definition unique_assign (c : cache) : Prop :=
  ∀ a b, a ∈ c → b ∈ c → eid a.2 = eid b.2 → escanid a.2 = escanid b.2 →
         escanid a.2 ≠ 0 → a.1 = b.1.

Definition cache_inv (c : cache) : Prop :=
  dict_ok c ∧ Forall slot_inv c ∧ unique_assign c.

(** The samples a metric receives from the scans at positions [n],
    [n + 1], ..., one scan after the other. *)
Fixpoint emitted (proj : durations → option Q) (strptime : string → option Q)
    (engines : list engine) (clock : nat → Q) (n : nat) (scans : list scan) : list sample :=
  match scans with
  | [] => []
  | s :: rest =>
      match classify strptime s (clock n) ≫= proj with
      | Some q => [Sample (scan_labels engines s) q]
      | None => []
      end ++ emitted proj strptime engines clock (S n) rest
  end.

(** A scan with another [queuedOn] or [engineStartedOn] member. *)
Definition with_queuedOn (v : option string) (s : scan) : scan :=
  Scan (scan_id s) (stage_id s) (scan_engine s) (dateCreated s) v
       (engineStartedOn s) (completedOn s).
Definition with_engineStartedOn (v : option string) (s : scan) : scan :=
  Scan (scan_id s) (stage_id s) (scan_engine s) (dateCreated s) (queuedOn s)
       v (completedOn s).

(** A slot that carries a scan is not Idle. *)
Definition busy_inv (kv : (Z * Z) * slot) : Prop :=
  escanid kv.2 ≠ 0 → estate kv.2 ≠ Idle.

(** What [cxgetengines] and [cxgetscansqueue] make of a reply: the list
    in the body of an accepted answer, the empty list for a refusal. *)
Definition received {A} (rp : reply (list A)) (l : list A) : Prop :=
  match rp with
  | raised => False
  | response status_code body =>
      if accepted status_code then body = Some l else l = []
  end.

(** The requests of a scrape go through: [engines] and [scans] are the
    lists [collect] holds at line 472, [apitoken] the token they were
    asked with, [ts'] the token globals then. The engines are those of
    the first request when it gave a list that is not empty, else those
    of the second request, made after [resettoken] and a new [gettoken]. *)
Definition answered (lower : string → string) (g : globals) (net : network)
    (clk : clocks) (ts ts' : token_state) (apitoken : string)
    (engines : list engine) (scans : list scan) : Prop :=
  let engines_url := sapipath_of lower (_hostname g) engines_path in
  let scans_url := sapipath_of lower (_hostname g) scansqueue_path in
  let logon post := cxlogon lower post (_hostname g) (_username g) (_password g) in
  ((gettoken (check1 clk) (stamp1 clk) (logon (post1 net)) ts = Some (ts', apitoken)
    ∧ received (get_engines1 net engines_url apitoken) engines ∧ engines ≠ [])
   ∨ (∃ ts1 tok1,
        gettoken (check1 clk) (stamp1 clk) (logon (post1 net)) ts = Some (ts1, tok1)
        ∧ (∀ e, received (get_engines1 net engines_url tok1) e → e = [])
        ∧ gettoken (check2 clk) (stamp2 clk) (logon (post2 net)) (resettoken ts1)
          = Some (ts', apitoken)
        ∧ received (get_engines2 net engines_url apitoken) engines))
  ∧ received (get_scans net scans_url apitoken) scans.

(** ** Example data *)

Definition E0 : engine := Engine 0 "E0" 1 0 999999.
Definition E1 : engine := Engine 1 "E1" 2 0 999999.

(** Scan 7, stage 4 (Scanning), on engine 1. *)
Definition S7 : scan :=
  Scan 7 4 (Some 1) (Some "2020-02-01T09:00:00"%string) None
       (Some "2020-02-01T10:00:00"%string) None.

(** Scan 8, stage 4 (Scanning), whose engine member has id 0. *)
Definition S8 : scan :=
  Scan 8 4 (Some 0) (Some "2020-02-01T09:00:00"%string) None
       (Some "2020-02-01T10:00:00"%string) None.

(** What scan 7 is worth at 11:00: 120 minutes in all, 60 scanning. *)
Definition D7 : durations :=
  Durations (Some (7200 # 60)%Q) None None (Some (3600 # 60)%Q).

(** Scan 9, stage 4, started at 10:00 and completed at 09:00. *)
Definition S9 : scan :=
  Scan 9 4 (Some 1) (Some "2020-02-01T09:00:00"%string) None
       (Some "2020-02-01T10:00:00"%string) (Some "2020-02-01T09:00:00"%string).

(** Scan 10, stage 4, whose engine start is the epoch. *)
Definition S10 : scan :=
  Scan 10 4 (Some 1) (Some "2020-02-01T09:00:00"%string) None
       (Some "1970-01-01T00:00:00"%string) None.

(** Scan 11, stage 3, without a creation date. *)
Definition S11 : scan :=
  Scan 11 3 (Some 1) None (Some "2020-02-01T10:00:00"%string) None None.

(** Scan 12, stage 3, queued at the epoch. *)
Definition S12 : scan :=
  Scan 12 3 (Some 1) (Some "2020-02-01T09:00:00"%string)
       (Some "1970-01-01T00:00:00"%string) None None.

(** 2020-02-01T11:00:00 UTC. *)
Definition eleven : Q := 1580554800%Q.

(** Engine 1 after its capacity dropped to 1. *)
Definition E1_shrunk : engine := Engine 1 "E1" 1 0 999999.

(** Scan 13, stage 3, whose queued-at text is no date. *)
Definition S13 : scan :=
  Scan 13 3 (Some 1) (Some "2020-02-01T09:00:00"%string) (Some "soon"%string)
       None None.

(** Scan 14, stage 3, queued at 10:00, on engine 1. *)
Definition S14 : scan :=
  Scan 14 3 (Some 1) (Some "2020-02-01T09:00:00"%string)
       (Some "2020-02-01T10:00:00"%string) None None.

Definition idle_slot (idx : Z) : slot := Slot 1 "E1" idx "2" "0" "999999" 0 Idle.
Definition busy_slot (idx scanid : Z) (st : status) : slot :=
  Slot 1 "E1" idx "2" "0" "999999" scanid st.

(** [str.lower] on ASCII text. *)
Definition lower_char (a : ascii) : ascii :=
  let n := nat_of_ascii a in
  if (65 <=? n)%nat && (n <=? 90)%nat then ascii_of_nat (n + 32) else a.

Fixpoint lower_ascii (s : string) : string :=
  match s with
  | EmptyString => EmptyString
  | String a r => String (lower_char a) (lower_ascii r)
  end.

Definition G1 : globals := Globals "SAST.example.org" "admin" "secret" 9700 20.

(** A server that accepts the logon and lists engine 1 and scan 7. *)
Definition net_up : network :=
  Network (λ _ _ _, response 200 (Some (TokenJson "" "abc")))
          (λ _ _, response 200 (Some [E1]))
          (λ _ _ _, response 200 (Some (TokenJson "" "def")))
          (λ _ _, response 200 (Some [E1]))
          (λ _ _, response 200 (Some [S7])).

(** A server that accepts the logon and answers 401 for the engines. *)
Definition net_refusing : network :=
  Network (λ _ _ _, response 200 (Some (TokenJson "" "abc")))
          (λ _ _, response 401 None)
          (λ _ _ _, response 200 (Some (TokenJson "" "def")))
          (λ _ _, response 401 None)
          (λ _ _, response 200 (Some [S7])).

(** A server whose engine requests raise. *)
Definition net_down : network :=
  Network (λ _ _ _, response 200 (Some (TokenJson "" "abc")))
          (λ _ _, raised)
          (λ _ _ _, response 200 (Some (TokenJson "" "def")))
          (λ _ _, raised)
          (λ _ _, response 200 (Some [S7])).

Definition clk11 : clocks := Clocks eleven eleven eleven eleven (λ _, eleven).


(** Scan 15, stage 7 (Finished). *)
Definition S15 : scan :=
  Scan 15 7 (Some 1) (Some "2020-02-01T09:00:00"%string) None
       (Some "2020-02-01T10:00:00"%string) (Some "2020-02-01T10:00:00"%string).

(** What scan 14 is worth at 11:00: 120 minutes in all, 60 queued. *)
Definition D14 : durations :=
  Durations (Some (7200 # 60)%Q) None (Some (3600 # 60)%Q) None.

(** * Properties *)

(** ** Keys are untouched by the steps that mutate values *)

Lemma alter_snd_keys (f : slot → slot) i (c : cache) :
  (alter (prod_map id f) i c).*1 = c.*1.
Proof.
  rewrite (list_fmap_alter fst (prod_map id f) id c i).
  - by apply list_alter_id.
  - apply Forall_forall. by intros [].
Qed.

Lemma release_keys scans (c : cache) : (release scans c).*1 = c.*1.
Proof.
  unfold release. rewrite <-list_fmap_compose.
  apply list_fmap_ext. by intros ? [] ?.
Qed.

Lemma setenginescan_keys scanid engineid st (c : cache) :
  (setenginescan scanid engineid st c).*1 = c.*1.
Proof.
  unfold setenginescan.
  destruct (list_find _ c) as [[i ?]|]; [apply alter_snd_keys|].
  destruct (list_find _ c) as [[i ?]|]; [apply alter_snd_keys|done].
Qed.

Lemma assign_scan_keys (c : cache) s : (assign_scan c s).*1 = c.*1.
Proof.
  unfold assign_scan. destruct (_ && _); [|done].
  destruct (scanenginestatus _); auto using setenginescan_keys.
Qed.

Lemma assign_keys scans (c : cache) : (assign scans c).*1 = c.*1.
Proof.
  unfold assign. revert c.
  induction scans as [|s scans IH]; intros c; simpl; [done|].
  rewrite IH. apply assign_scan_keys.
Qed.

(** ** Prune is the filter on [lfound_engine] *)

Lemma lfound_engine_true engines (k : key) :
  lfound_engine engines k = true ↔
  ∃ e, e ∈ engines ∧ engine_id e = k.1 ∧ k.2 ≤ maxScans e.
Proof.
  induction engines as [|e engines IH]; simpl.
  - split; [done|]. intros (e & He & _). by apply elem_of_nil in He.
  - destruct (bool_decide (engine_id e = k.1) && bool_decide (k.2 ≤ maxScans e)) eqn:E.
    + apply andb_true_iff in E as [?%bool_decide_eq_true ?%bool_decide_eq_true].
      split; [|done]. intros _. exists e. split; [left|done].
    + rewrite IH. split.
      * intros (e' & He' & ?). exists e'. split; [by right|done].
      * intros (e' & He' & H1 & H2). apply elem_of_cons in He' as [->|He'].
        -- apply andb_false_iff in E as [E|E]; apply bool_decide_eq_false in E; done.
        -- eauto.
Qed.

Lemma filter_all {A} (P : A → Prop) `{!∀ x, Decision (P x)} (l : list A) :
  Forall P l → filter P l = l.
Proof.
  induction 1 as [|x l HP _ IH]; [done|].
  by rewrite filter_cons_True, IH.
Qed.

Lemma pop_lookup (c : cache) i k x :
  dict_ok c → c !! i = Some (k, x) → pop k c = take i c ++ drop (S i) c.
Proof.
  unfold dict_ok, pop. intros Hnd Hi.
  rewrite <-(take_drop_middle c i (k, x)) in Hnd by done.
  rewrite <-(take_drop_middle c i (k, x)) at 1 by done.
  rewrite fmap_app, fmap_cons in Hnd. simpl in Hnd.
  apply NoDup_app in Hnd as (_ & Hl & Hr%NoDup_cons).
  destruct Hr as [Hr _].
  rewrite filter_app, filter_cons_False by (simpl; tauto).
  f_equal; apply filter_all, Forall_forall; intros [k' x'] Hin; simpl; intros ->.
  - apply (Hl k); [|left]. apply list_elem_of_fmap. by exists (k, x').
  - apply Hr. apply list_elem_of_fmap. by exists (k, x').
Qed.

Lemma dict_ok_sublist (c1 c2 : cache) : c1 `sublist_of` c2 → dict_ok c2 → dict_ok c1.
Proof.
  unfold dict_ok. intros Hs.
  assert (c1.*1 `sublist_of` c2.*1) as Hk
    by (induction Hs; csimpl; by constructor).
  intros Hnd. by eapply sublist_NoDup.
Qed.

Lemma prune_loop_filter engines n (c : cache) :
  dict_ok c → (n ≤ length c)%nat →
  prune_loop engines n c =
  filter (λ kv, lfound_engine engines kv.1 = true) (take n c) ++ drop n c.
Proof.
  revert c. induction n as [|idx IH]; intros c Hok Hn; simpl.
  { done. }
  destruct (lookup_lt_is_Some_2 c idx) as [[k x] Hi]; [lia|].
  rewrite Hi, (take_S_r _ _ _ Hi), filter_app, <-app_assoc.
  destruct (lfound_engine engines k) eqn:Hf.
  - rewrite IH by (done || lia). f_equal.
    rewrite filter_cons_True by done. simpl. by rewrite <-(drop_S _ _ _ Hi).
  - rewrite filter_cons_False by (simpl; congruence). simpl.
    rewrite (pop_lookup _ _ _ _ Hok Hi).
    assert (length (take idx c) = idx) as Hlen by (rewrite length_take; lia).
    rewrite IH.
    + rewrite take_app_length' by done. by rewrite drop_app_length' by done.
    + eapply dict_ok_sublist; [|done].
      rewrite <-(take_drop_middle c idx (k, x)) at 3 by done.
      apply sublist_app; [done|]. by apply sublist_cons.
    + rewrite length_app. lia.
Qed.

Lemma prune_filter engines (c : cache) :
  dict_ok c →
  prune engines c = filter (λ kv, lfound_engine engines kv.1 = true) c.
Proof.
  intros Hok. unfold prune. rewrite prune_loop_filter by done.
  by rewrite firstn_all, drop_all, app_nil_r.
Qed.

Lemma prune_nil_engines (c : cache) : dict_ok c → prune [] c = [].
Proof.
  intros Hok. rewrite prune_filter by done.
  induction c as [|kv c IH]; [done|].
  rewrite filter_cons_False by done. apply IH.
  eapply dict_ok_sublist; [|done]. by apply sublist_cons.
Qed.

(** ** Grow adds the missing keys at the end, and nothing else *)

Lemma foldl_invariant {A B} (f : A → B → A) (P : A → Prop) (l : list B) a :
  P a → (∀ a' x, x ∈ l → P a' → P (f a' x)) → P (foldl f a l).
Proof.
  revert a. induction l as [|x l IH]; intros a Ha Hstep; simpl; [done|].
  apply IH.
  - apply Hstep; [left|done].
  - intros a' y Hy. apply Hstep. by right.
Qed.

Lemma grow_ind (P : cache → Prop) engines (c : cache) :
  P c →
  (∀ c' e idx, P c' → e ∈ engines → 1 ≤ idx ≤ maxScans e →
     (engine_id e, idx) ∉ c'.*1 →
     P (c' ++ [((engine_id e, idx), new_slot e idx)])) →
  P (grow engines c).
Proof.
  intros Hc Hstep. unfold grow.
  apply foldl_invariant; [done|]. intros c1 e He Hc1. unfold grow_engine.
  apply foldl_invariant; [done|]. intros c2 idx Hidx Hc2.
  apply elem_of_seqZ in Hidx. unfold grow_slot.
  case_bool_decide; [done|]. apply Hstep; (done || lia).
Qed.

Lemma grow_dict_ok engines (c : cache) : dict_ok c → dict_ok (grow engines c).
Proof.
  intros Hok. apply grow_ind; [done|]. unfold dict_ok.
  intros c' e idx Hc' _ _ Hnew. rewrite fmap_app. apply NoDup_app.
  split_and!; [done| |apply NoDup_singleton].
  intros k Hk ->%list_elem_of_singleton. done.
Qed.

Lemma grow_Forall (Q : (Z * Z) * slot → Prop) engines (c : cache) :
  Forall Q c →
  (∀ e idx, e ∈ engines → 1 ≤ idx ≤ maxScans e →
     Q ((engine_id e, idx), new_slot e idx)) →
  Forall Q (grow engines c).
Proof.
  intros Hc Hnew. apply grow_ind; [done|].
  intros c' e idx Hc' He Hidx _. apply Forall_app. split; [done|].
  apply Forall_singleton. by apply Hnew.
Qed.

Lemma grow_slot_mono e (c : cache) idx k : k ∈ c.*1 → k ∈ (grow_slot e c idx).*1.
Proof.
  intros Hk. unfold grow_slot. case_bool_decide; [done|].
  rewrite fmap_app. apply elem_of_app. by left.
Qed.

Lemma grow_slot_adds e (c : cache) idx : (engine_id e, idx) ∈ (grow_slot e c idx).*1.
Proof.
  unfold grow_slot. case_bool_decide; [done|].
  rewrite fmap_app. apply elem_of_app. right. simpl. left.
Qed.

Lemma grow_engine_mono e (c : cache) k : k ∈ c.*1 → k ∈ (grow_engine c e).*1.
Proof.
  intros Hk. unfold grow_engine. apply foldl_invariant; [done|].
  intros c' idx _. apply grow_slot_mono.
Qed.

Lemma grow_engine_complete e (c : cache) idx :
  1 ≤ idx ≤ maxScans e → (engine_id e, idx) ∈ (grow_engine c e).*1.
Proof.
  intros Hidx. unfold grow_engine.
  assert (idx ∈ seqZ 1 (maxScans e)) as Hin by (apply elem_of_seqZ; lia).
  revert c Hin. generalize (seqZ 1 (maxScans e)).
  induction l as [|x l IH]; intros c Hin; simpl.
  { by apply elem_of_nil in Hin. }
  apply elem_of_cons in Hin as [->|Hin]; [|by apply IH].
  apply (foldl_invariant _ (λ c', (engine_id e, x) ∈ c'.*1)).
  - apply grow_slot_adds.
  - intros c' y _. apply grow_slot_mono.
Qed.

Lemma grow_complete engines (c : cache) e idx :
  e ∈ engines → 1 ≤ idx ≤ maxScans e → (engine_id e, idx) ∈ (grow engines c).*1.
Proof.
  intros He Hidx. unfold grow. revert c.
  induction engines as [|e' engines IH]; intros c; simpl.
  { by apply elem_of_nil in He. }
  apply elem_of_cons in He as [->|He]; [|by apply IH].
  apply (foldl_invariant _ (λ c', (engine_id e', idx) ∈ c'.*1)).
  - by apply grow_engine_complete.
  - intros c' y _. apply grow_engine_mono.
Qed.

Lemma grow_keys_sound engines (c : cache) k :
  k ∈ (grow engines c).*1 →
  k ∈ c.*1 ∨ ∃ e, e ∈ engines ∧ engine_id e = k.1 ∧ 1 ≤ k.2 ≤ maxScans e.
Proof.
  apply (grow_ind (λ c', k ∈ c'.*1 → _)); [by left|].
  intros c' e idx IH He Hidx _. rewrite fmap_app, elem_of_app.
  intros [Hk| ->%list_elem_of_singleton]; [by apply IH|].
  right. by exists e.
Qed.

(** When every engine already has all its slots, grow changes nothing. *)
Lemma grow_saturated engines (c : cache) :
  (∀ e idx, e ∈ engines → 1 ≤ idx ≤ maxScans e → (engine_id e, idx) ∈ c.*1) →
  grow engines c = c.
Proof.
  intros Hall. apply (grow_ind (λ c', c' = c)); [done|].
  intros c' e idx -> He Hidx Hnew. destruct Hnew. by apply Hall.
Qed.

(** ** One call of [setenginescan] *)

Lemma frame_eid a b : frame a = frame b → a.1 = b.1 ∧ eid a.2 = eid b.2.
Proof. destruct a as [? []], b as [? []]. unfold frame. intros. by simplify_eq/=. Qed.

Lemma frame_inj a b :
  frame a = frame b → escanid a.2 = escanid b.2 → estate a.2 = estate b.2 → a = b.
Proof.
  destruct a as [? []], b as [? []]. unfold frame. intros. by simplify_eq/=.
Qed.

Lemma claim_same scanid x : escanid x = scanid → set_escanid scanid x = x.
Proof. destruct x. simpl. by intros ->. Qed.

Lemma setenginescan_hit scanid engineid st (c : cache) :
  setenginescan scanid engineid st c =
  match hit scanid engineid c with
  | Some i => alter (prod_map id (claim scanid st)) i c
  | None => c
  end.
Proof.
  unfold setenginescan, hit.
  destruct (list_find (carries engineid scanid) c) as [[i kv]|] eqn:E.
  - apply list_find_Some in E as (Hi & [_ Hc] & _).
    apply list_alter_ext; [|done]. intros kv' ?. simplify_eq.
    destruct kv as [k x]. unfold prod_map, claim. simpl in *.
    by rewrite claim_same.
  - by destruct (list_find (carries engineid 0) c) as [[i kv]|].
Qed.

Lemma scanenginestatus_Idle z : scanenginestatus z = Idle ↔ ¬ 3 ≤ z ≤ 6.
Proof.
  unfold scanenginestatus. repeat case_bool_decide; simpl; split; (done || lia).
Qed.

Lemma assign_scan_target (c : cache) s :
  assign_scan c s =
  match target s c with
  | Some i => alter (prod_map id (claim (scan_id s) (scanenginestatus (stage_id s)))) i c
  | None => c
  end.
Proof.
  unfold assign_scan, target, effective.
  destruct (decide _) as [(H1 & H2 & H3)|Hn].
  - rewrite !bool_decide_eq_true_2 by done. simpl.
    rewrite <-setenginescan_hit.
    destruct (scanenginestatus (stage_id s)) eqn:E; [|done..].
    apply scanenginestatus_Idle in E. lia.
  - destruct (bool_decide (0 < scan_id s) && bool_decide (0 < scanengineid s)) eqn:E; [|done].
    apply andb_true_iff in E as [?%bool_decide_eq_true ?%bool_decide_eq_true].
    destruct (scanenginestatus (stage_id s)) eqn:E'; [done|..].
    all: assert (¬ 3 ≤ stage_id s ≤ 6) as Hs by tauto.
    all: apply scanenginestatus_Idle in Hs; congruence.
Qed.

Lemma assign_scan_length (c : cache) s : length (assign_scan c s) = length c.
Proof. rewrite assign_scan_target. destruct (target s c); [apply length_alter|done]. Qed.

Lemma assign_length scans (c : cache) : length (assign scans c) = length c.
Proof.
  unfold assign. revert c. induction scans as [|s scans IH]; intros c; simpl; [done|].
  by rewrite IH, assign_scan_length.
Qed.

(** What [target] finds: the first slot of the engine that carries the
    id, or, when none carries it, the first free slot of the engine. *)
Lemma target_Some s (c : cache) i :
  target s c = Some i ↔
  effective s ∧ ∃ a, c !! i = Some a ∧ eid a.2 = scanengineid s ∧
    ((escanid a.2 = scan_id s ∧
      ∀ j y, c !! j = Some y → (j < i)%nat → ¬ carries (scanengineid s) (scan_id s) y)
     ∨ (escanid a.2 = 0 ∧
        (∀ y, y ∈ c → ¬ carries (scanengineid s) (scan_id s) y) ∧
        ∀ j y, c !! j = Some y → (j < i)%nat → ¬ carries (scanengineid s) 0 y)).
Proof.
  unfold target, hit.
  destruct (decide (effective s)) as [He|He]; [|split; [done|by intros [? _]]].
  destruct (list_find (carries _ (scan_id s)) c) as [[i1 a1]|] eqn:E1.
  - destruct (proj1 (list_find_Some _ _ _ _) E1) as (Hi1 & [Hc1 Hc1'] & Hm1). split.
    + intros [= <-]. split; [done|]. exists a1. split_and!; [done..|]. by left.
    + intros (_ & a & Ha & Hea & [[Hs Hmin]|[Hz [Hno _]]]).
      * f_equal. destruct (Nat.lt_trichotomy i1 i) as [?|[?|?]]; [|done|].
        -- destruct (Hmin i1 a1); done.
        -- destruct (Hm1 i a); done.
      * destruct (Hno a1); [by eapply list_elem_of_lookup_2|done].
  - apply list_find_None in E1. rewrite Forall_forall in E1.
    destruct (list_find (carries _ 0) c) as [[i0 a0]|] eqn:E0; simpl.
    + destruct (proj1 (list_find_Some _ _ _ _) E0) as (Hi0 & [Hc0 Hc0'] & Hm0). split.
      * intros [= <-]. split; [done|]. exists a0. split_and!; [done..|]. right. done.
      * intros (_ & a & Ha & Hea & [[Hs Hmin]|[Hz [Hno Hmin]]]).
        -- destruct (E1 a); [by eapply list_elem_of_lookup_2|done].
        -- f_equal. destruct (Nat.lt_trichotomy i0 i) as [?|[?|?]]; [|done|].
           ++ destruct (Hmin i0 a0); done.
           ++ destruct (Hm0 i a); done.
    + apply list_find_None in E0. rewrite Forall_forall in E0. split; [done|].
      intros (_ & a & Ha & Hea & [[Hs Hmin]|[Hz [Hno Hmin]]]).
      * destruct (E1 a); [by eapply list_elem_of_lookup_2|done].
      * destruct (E0 a); [by eapply list_elem_of_lookup_2|done].
Qed.

Lemma target_None s (c : cache) :
  target s c = None ↔
  ¬ effective s ∨
  ∀ y, y ∈ c → ¬ carries (scanengineid s) (scan_id s) y ∧ ¬ carries (scanengineid s) 0 y.
Proof.
  unfold target, hit.
  destruct (decide (effective s)) as [He|He]; [|split; [by left|done]].
  destruct (list_find (carries _ (scan_id s)) c) as [[i1 a1]|] eqn:E1.
  - apply list_find_Some in E1 as (Hi1 & Hc1 & _). split; [done|].
    intros [?|Hno]; [done|]. destruct (Hno a1) as [[] _]; [|done].
    by eapply list_elem_of_lookup_2.
  - apply list_find_None in E1. rewrite Forall_forall in E1.
    destruct (list_find (carries _ 0) c) as [[i0 a0]|] eqn:E0; simpl.
    + apply list_find_Some in E0 as (Hi0 & Hc0 & _). split; [done|].
      intros [?|Hno]; [done|]. destruct (Hno a0) as [_ []]; [|done].
      by eapply list_elem_of_lookup_2.
    + apply list_find_None in E0. rewrite Forall_forall in E0.
      split; [|done]. intros _. right. intros y Hy. split; auto.
Qed.

(** ** The assignment loop, and why running it twice changes nothing *)

Lemma assign_scan_entry (c : cache) s j a :
  c !! j = Some a →
  ∃ a', assign_scan c s !! j = Some a' ∧
    (a' = a ∨ (target s c = Some j ∧
               a' = (a.1, claim (scan_id s) (scanenginestatus (stage_id s)) a.2))).
Proof.
  intros Ha. rewrite assign_scan_target.
  destruct (target s c) as [i|] eqn:E; [|eauto].
  rewrite list_lookup_alter. case_decide; subst; [|eauto].
  rewrite Ha. simpl. eexists. split; [done|]. right. by destruct a.
Qed.

Lemma effective_id s : effective s → scan_id s ≠ 0.
Proof. unfold effective. lia. Qed.

Lemma assign_future scans (c : cache) i a f :
  c !! i = Some a → assign scans c !! i = Some f →
  frame f = frame a
  ∧ (escanid a.2 ≠ 0 → escanid f.2 = escanid a.2)
  ∧ (escanid a.2 = 0 → escanid f.2 ≠ 0 →
     ∀ y, y ∈ c → ¬ carries (eid a.2) (escanid f.2) y).
Proof.
  unfold assign. revert c a.
  induction scans as [|s scans IH]; intros c a Ha Hf; simpl in Hf.
  { simplify_eq. split_and!; [done..|]. intros -> ?. done. }
  destruct (assign_scan_entry c s i a Ha) as (a' & Ha' & Hcase).
  destruct (IH _ _ Ha' Hf) as (Hfr & Hkeep & Hnew).
  assert (∀ y, y ∈ c → carries (eid a.2) (escanid f.2) y → escanid f.2 ≠ 0 →
            ∃ y', y' ∈ assign_scan c s ∧ carries (eid a.2) (escanid f.2) y') as Hcarry.
  { intros y [j Hj]%list_elem_of_lookup_1 [Hy1 Hy2] Hnz.
    destruct (assign_scan_entry c s j y Hj) as (y' & Hy' & [->|[Ht ->]]).
    - exists y. split; [by eapply list_elem_of_lookup_2|done].
    - eexists. split; [by eapply list_elem_of_lookup_2|].
      apply target_Some in Ht as (_ & y0 & Hy0 & _ & [[Hs _]|[Hz _]]); simplify_eq.
      + split; simpl; [done|]. congruence.
      + congruence. }
  destruct Hcase as [->|[Ht ->]].
  - split_and!; [done..|]. intros Hz Hnz y Hy Hc.
    destruct (Hcarry y Hy Hc Hnz) as (y' & Hy' & Hc').
    by apply (Hnew Hz Hnz y').
  - simpl in *. split_and!; [done| |].
    + intros Hnz. rewrite Hkeep by by apply effective_id, (target_Some s c i).
      apply target_Some in Ht as (_ & y0 & Hy0 & _ & [[Hs _]|[Hz _]]); simplify_eq; done.
    + intros Hz Hnz.
      apply target_Some in Ht as (He & y0 & Hy0 & Heid & [[Hs _]|[_ [Hno _]]]); simplify_eq.
      * apply effective_id in He. congruence.
      * rewrite Hkeep by by apply effective_id. by rewrite Heid.
Qed.

Lemma target_ext s (c1 c2 : cache) :
  length c1 = length c2 →
  (∀ i a b, c1 !! i = Some a → c2 !! i = Some b →
     eid a.2 = eid b.2 ∧ escanid a.2 = escanid b.2) →
  target s c1 = target s c2.
Proof.
  intros Hlen Hpt.
  assert (∀ e z i a, c1 !! i = Some a →
            ∃ b, c2 !! i = Some b ∧ (carries e z a ↔ carries e z b)) as H12.
  { intros e z i a Ha.
    destruct (lookup_lt_is_Some_2 c2 i) as [b Hb];
      [rewrite <-Hlen; by eapply lookup_lt_Some|].
    exists b. split; [done|]. destruct (Hpt i a b Ha Hb) as [E1 E2].
    unfold carries. by rewrite E1, E2. }
  assert (∀ e z i b, c2 !! i = Some b →
            ∃ a, c1 !! i = Some a ∧ (carries e z a ↔ carries e z b)) as H21.
  { intros e z i b Hb.
    destruct (lookup_lt_is_Some_2 c1 i) as [a Ha];
      [rewrite Hlen; by eapply lookup_lt_Some|].
    exists a. split; [done|]. destruct (Hpt i a b Ha Hb) as [E1 E2].
    unfold carries. by rewrite E1, E2. }
  destruct (target s c1) as [i|] eqn:E.
  - symmetry. apply target_Some. apply target_Some in E as (He & a & Ha & Hea & Hcase).
    split; [done|].
    destruct (H12 0 0 i a Ha) as (b & Hb & _). destruct (Hpt i a b Ha Hb) as [E1 E2].
    exists b. split_and!; [done|congruence|].
    destruct Hcase as [[Hs Hmin]|[Hz [Hno Hmin]]]; [left|right].
    + split; [congruence|]. intros j y Hy Hlt Hc.
      destruct (H21 (scanengineid s) (scan_id s) j y Hy) as (x & Hx & Hiff).
      apply (Hmin j x Hx Hlt). by apply Hiff.
    + split_and!; [congruence| |].
      * intros y [j Hy]%list_elem_of_lookup_1 Hc.
        destruct (H21 (scanengineid s) (scan_id s) j y Hy) as (x & Hx & Hiff).
        apply (Hno x); [by eapply list_elem_of_lookup_2|by apply Hiff].
      * intros j y Hy Hlt Hc.
        destruct (H21 (scanengineid s) 0 j y Hy) as (x & Hx & Hiff).
        apply (Hmin j x Hx Hlt). by apply Hiff.
  - symmetry. apply target_None. apply target_None in E as [?|Hno]; [by left|right].
    intros y [j Hy]%list_elem_of_lookup_1.
    destruct (H21 (scanengineid s) (scan_id s) j y Hy) as (x & Hx & Hiff).
    destruct (H21 (scanengineid s) 0 j y Hy) as (x' & Hx' & Hiff0). simplify_eq.
    destruct (Hno x) as [N1 N2]; [by eapply list_elem_of_lookup_2|].
    split; intros Hc; [apply N1|apply N2]; tauto.
Qed.

(** The slot a scan reaches is the one it reaches in the cache at the end
    of the loop. *)
Lemma target_future s scans (c : cache) :
  target s (assign scans (assign_scan c s)) = target s c.
Proof.
  set (c' := assign_scan c s). set (F := assign scans c').
  assert (length F = length c) as Hlen
    by (unfold F, c'; by rewrite assign_length, assign_scan_length).
  assert (∀ j a, c !! j = Some a → ∃ a' f, c' !! j = Some a' ∧ F !! j = Some f) as Hrow.
  { intros j a Ha. destruct (assign_scan_entry c s j a Ha) as (a' & Ha' & _).
    destruct (lookup_lt_is_Some_2 F j) as [f Hf];
      [rewrite Hlen; by eapply lookup_lt_Some|]. eauto. }
  destruct (target s c) as [i|] eqn:E.
  - apply target_Some. pose proof E as (He & a & Ha & Hea & Hcase)%target_Some.
    split; [done|].
    pose proof (effective_id s He) as Hid.
    assert (c' !! i = Some (a.1, claim (scan_id s) (scanenginestatus (stage_id s)) a.2)) as Ha'.
    { unfold c'. rewrite assign_scan_target, E, list_lookup_alter_eq, Ha. by destruct a. }
    destruct (Hrow i a Ha) as (? & f & ? & Hf). simplify_eq.
    destruct (assign_future scans c' i _ f Ha' Hf) as (Hfr & Hkeep & _).
    apply frame_eid in Hfr as [_ Hfe]. simpl in *.
    exists f. split_and!; [done|congruence|]. left.
    split; [by apply Hkeep|]. intros j y Hy Hlt [Hy1 Hy2].
    destruct (lookup_lt_is_Some_2 c j) as [x Hx];
      [rewrite <-Hlen; by eapply lookup_lt_Some|].
    assert (c' !! j = Some x) as Hx'.
    { unfold c'. rewrite assign_scan_target, E, list_lookup_alter_ne by lia. done. }
    destruct (assign_future scans c' j x y Hx' Hy) as (Hfr & Hkeep' & Hnew).
    apply frame_eid in Hfr as [_ Hfe'].
    destruct (decide (escanid x.2 = 0)) as [Hz|Hnz].
    + apply (Hnew Hz ltac:(congruence) _ (list_elem_of_lookup_2 _ _ _ Ha')).
      split; simpl; congruence.
    + specialize (Hkeep' Hnz).
      assert (carries (scanengineid s) (scan_id s) x) as Hcx by (split; congruence).
      destruct Hcase as [[_ Hmin]|[_ [Hno _]]].
      * by apply (Hmin j x).
      * apply (Hno x); [by eapply list_elem_of_lookup_2|done].
  - apply target_None. pose proof E as [?|Hno]%target_None; [by left|right].
    assert (c' = c) as Hc' by (unfold c'; by rewrite assign_scan_target, E).
    intros y [j Hy]%list_elem_of_lookup_1.
    destruct (lookup_lt_is_Some_2 c j) as [x Hx];
      [rewrite <-Hlen; by eapply lookup_lt_Some|].
    assert (F !! j = Some y) as Hy' by done.
    unfold F in Hy'. rewrite Hc' in Hy'.
    destruct (assign_future scans c j x y Hx Hy') as (Hfr & Hkeep & _).
    apply frame_eid in Hfr as [_ Hfe].
    destruct (Hno x) as [N1 N2]; [by eapply list_elem_of_lookup_2|].
    destruct (decide (escanid x.2 = 0)) as [Hz|Hnz].
    + split; intros [Hy1 Hy2]; apply N2; split; congruence.
    + specialize (Hkeep Hnz).
      split; intros [Hy1 Hy2]; [apply N1|apply N2]; split; congruence.
Qed.

(** Running the loop again from a cache that has the final assignments
    and, slot by slot, either the current or the final state, ends in
    the same final cache. *)
Lemma assign_replay scans (c c2 : cache) :
  length c2 = length c →
  (∀ i a b f, c !! i = Some a → c2 !! i = Some b → assign scans c !! i = Some f →
     frame b = frame a ∧ escanid b.2 = escanid f.2
     ∧ (estate b.2 = estate a.2 ∨ estate b.2 = estate f.2)) →
  assign scans c2 = assign scans c.
Proof.
  revert c c2. induction scans as [|s scans IH]; intros c c2 Hlen Hinv.
  { apply list_eq_same_length with (length c); [done..|].
    intros i b a _ Hb Ha. destruct (Hinv i a b a Ha Hb Ha) as (Hfr & Hid & Hst).
    apply frame_inj; [done..|]. by destruct Hst. }
  change (assign scans (assign_scan c2 s) = assign scans (assign_scan c s)).
  change (assign (s :: scans) c) with (assign scans (assign_scan c s)) in Hinv.
  assert (length (assign scans (assign_scan c s)) = length c) as HlenF
    by (by rewrite assign_length, assign_scan_length).
  assert (target s c2 = target s c) as Ht.
  { rewrite <-(target_future s scans c). apply target_ext; [congruence|].
    intros i b f Hb Hf.
    destruct (lookup_lt_is_Some_2 c i) as [a Ha];
      [rewrite <-Hlen; by eapply lookup_lt_Some|].
    destruct (Hinv i a b f Ha Hb Hf) as (Hfr & Hid & _).
    destruct (assign_scan_entry c s i a Ha) as (a' & Ha' & _).
    destruct (assign_future scans _ i a' f Ha' Hf) as (Hfr' & _).
    assert (frame a' = frame a) as Hfa.
    { rewrite assign_scan_target in Ha'. destruct (target s c) as [i0|]; [|congruence].
      rewrite list_lookup_alter in Ha'. case_decide; [|congruence].
      subst. rewrite Ha in Ha'. simpl in Ha'. simplify_eq. by destruct a. }
    split; [|done].
    transitivity (eid a.2); [by apply frame_eid|].
    symmetry. apply frame_eid. congruence. }
  apply IH; [by rewrite !assign_scan_length|].
  intros i a' b' f Ha' Hb' Hf.
  rewrite assign_scan_target in Ha', Hb'. rewrite Ht in Hb'.
  destruct (target s c) as [i0|] eqn:E.
  - rewrite list_lookup_alter in Ha', Hb'. case_decide.
    + subst i0. destruct (c !! i) as [a|] eqn:Ha; [|done].
      destruct (c2 !! i) as [b|] eqn:Hb; [|done].
      simpl in Ha', Hb'. simplify_eq.
      destruct (Hinv i a b f Ha Hb Hf) as (Hfr & Hid & Hst).
      assert (assign_scan c s !! i
              = Some (a.1, claim (scan_id s) (scanenginestatus (stage_id s)) a.2)) as Hci.
      { rewrite assign_scan_target, E, list_lookup_alter_eq, Ha. by destruct a. }
      destruct (assign_future scans _ i _ f Hci Hf) as (_ & Hkeep & _).
      apply target_Some in E as (He%effective_id & _).
      destruct a as [ka xa], b as [kb xb]. simpl in *. split_and!.
      * unfold frame in *. simpl in *. done.
      * symmetry. by apply Hkeep.
      * by left.
    + destruct (c !! i) as [a|] eqn:Ha; [|done].
      destruct (c2 !! i) as [b|] eqn:Hb; [|done]. simplify_eq.
      by apply (Hinv i).
  - by apply (Hinv i).
Qed.

Lemma assign_idempotent scans (c : cache) :
  assign scans (assign scans c) = assign scans c.
Proof.
  apply assign_replay; [apply assign_length|].
  intros i a b f Ha Hb Hf. rewrite Hb in Hf. injection Hf as ->.
  destruct (assign_future scans c i a f Ha Hb) as (Hfr & _).
  split_and!; [done..|]. by right.
Qed.

(** ** Release, and the slots after release and assignment *)

Lemma lfound_scan_true scans x :
  lfound_scan scans x = true ↔
  ∃ s, s ∈ scans ∧ escanid x = scan_id s ∧ 3 ≤ stage_id s ≤ 6
       ∧ scanengineid s = eid x.
Proof.
  induction scans as [|s scans IH]; simpl.
  - split; [done|]. intros (s & Hs & _). by apply elem_of_nil in Hs.
  - rewrite orb_true_iff, IH, !andb_true_iff, !bool_decide_eq_true. split.
    + intros [[[? ?] ?]|(s' & ? & ?)].
      * exists s. split; [left|done].
      * exists s'. split; [by right|done].
    + intros (s' & [->|?]%elem_of_cons & ? & ? & ?); [by left|].
      right. by exists s'.
Qed.

Lemma release_slot_settled scans k x : settled scans (k, release_slot scans x).
Proof.
  unfold settled, release_slot. simpl.
  destruct (lfound_scan scans x) eqn:E; [by left|by right].
Qed.

Lemma release_settled scans (c : cache) : Forall (settled scans) (release scans c).
Proof.
  unfold release. apply Forall_fmap, Forall_forall.
  intros [k x] _. apply release_slot_settled.
Qed.

Lemma release_fixed scans (c : cache) :
  Forall (settled scans) c → release scans c = c.
Proof.
  unfold release. induction 1 as [|[k x] c Hx _ IH]; [done|].
  csimpl. rewrite IH. f_equal. unfold prod_map, release_slot. simpl. f_equal.
  unfold settled in Hx. simpl in Hx. destruct Hx as [->|[Hz Hs]]; [done|].
  destruct (lfound_scan scans x); [done|]. destruct x. simpl in *. by subst.
Qed.

Lemma assign_scan_settled scans (c : cache) s :
  s ∈ scans → Forall (settled scans) c → Forall (settled scans) (assign_scan c s).
Proof.
  intros Hs Hc. rewrite assign_scan_target.
  destruct (target s c) as [i|] eqn:E; [|done].
  apply Forall_alter; [done|]. intros [k x] Hi _.
  apply target_Some in E as ((_ & _ & Hst) & a & Ha & Hea & _). simplify_eq.
  left. apply lfound_scan_true. exists s. simpl in *. done.
Qed.

Lemma assign_settled scans (c : cache) :
  Forall (settled scans) c → Forall (settled scans) (assign scans c).
Proof.
  intros Hc. unfold assign. apply foldl_invariant; [done|].
  intros c' s Hs. by apply assign_scan_settled.
Qed.

(** ** The pass as a whole *)

Lemma reconcile_keys engines scans (c : cache) :
  (reconcile engines scans c).*1 = (grow engines (prune engines c)).*1.
Proof. unfold reconcile. by rewrite assign_keys, release_keys. Qed.

Lemma prune_dict_ok engines (c : cache) : dict_ok c → dict_ok (prune engines c).
Proof.
  intros Hok. rewrite prune_filter by done.
  eapply dict_ok_sublist; [|done]. apply sublist_filter.
Qed.

Lemma reconcile_dict_ok engines scans (c : cache) :
  dict_ok c → dict_ok (reconcile engines scans c).
Proof.
  intros Hok. unfold dict_ok. rewrite reconcile_keys.
  by apply grow_dict_ok, prune_dict_ok.
Qed.

(** Every key that survives a pass is backed by an engine of the list. *)
Lemma reconcile_keys_found engines scans (c : cache) k :
  dict_ok c → k ∈ (reconcile engines scans c).*1 →
  lfound_engine engines k = true ∨
  ∃ e, e ∈ engines ∧ engine_id e = k.1 ∧ 1 ≤ k.2 ≤ maxScans e.
Proof.
  intros Hok. rewrite reconcile_keys. intros [Hk|Hk]%grow_keys_sound; [left|by right].
  rewrite prune_filter in Hk by done.
  apply list_elem_of_fmap in Hk as (kv & -> & Hkv).
  by apply list_elem_of_filter in Hkv as [? _].
Qed.

(** ** Invariants of the reachable caches *)

Lemma assign_scan_entry_inv (c : cache) s j a' :
  assign_scan c s !! j = Some a' →
  ∃ a, c !! j = Some a ∧
    (a' = a ∨ (target s c = Some j ∧
               a' = (a.1, claim (scan_id s) (scanenginestatus (stage_id s)) a.2))).
Proof.
  intros Ha'.
  destruct (lookup_lt_is_Some_2 c j) as [a Ha].
  { rewrite <-(assign_scan_length c s). by eapply lookup_lt_Some. }
  destruct (assign_scan_entry c s j a Ha) as (a'' & Ha'' & Hcase).
  exists a. split; [done|]. congruence.
Qed.

Lemma prune_slot_inv engines (c : cache) :
  dict_ok c → Forall slot_inv c → Forall slot_inv (prune engines c).
Proof.
  intros Hok Hc. rewrite prune_filter by done.
  rewrite Forall_forall in *. intros kv [_ ?]%list_elem_of_filter. auto.
Qed.

Lemma grow_slot_inv engines (c : cache) :
  Forall slot_inv c → Forall slot_inv (grow engines c).
Proof.
  intros Hc. apply grow_Forall; [done|]. intros e idx _ Hidx.
  unfold slot_inv. simpl. split_and!; (done || lia).
Qed.

Lemma release_slot_inv scans (c : cache) :
  Forall slot_inv c → Forall slot_inv (release scans c).
Proof.
  intros Hc. unfold release. apply Forall_fmap.
  eapply Forall_impl; [done|]. intros [k x] (H1 & H2 & H3 & H4 & H5).
  unfold slot_inv, release_slot. simpl in *.
  destruct (lfound_scan scans x); simpl; [done|]. split_and!; done.
Qed.

Lemma assign_scan_slot_inv (c : cache) s :
  Forall slot_inv c → Forall slot_inv (assign_scan c s).
Proof.
  intros Hc. rewrite assign_scan_target.
  destruct (target s c) as [i|] eqn:E; [|done].
  apply Forall_alter; [done|]. intros [k x] Hi (H1 & H2 & H3 & H4 & H5).
  apply target_Some in E as ((Hid & He & _) & a & Ha & Hea & _). simplify_eq.
  unfold slot_inv. simpl in *. split_and!; [done..|lia|lia].
Qed.

Lemma assign_slot_inv scans (c : cache) :
  Forall slot_inv c → Forall slot_inv (assign scans c).
Proof.
  intros Hc. unfold assign. apply foldl_invariant; [done|].
  intros c' s _. apply assign_scan_slot_inv.
Qed.

Lemma prune_unique engines (c : cache) :
  dict_ok c → unique_assign c → unique_assign (prune engines c).
Proof.
  intros Hok Hc. rewrite prune_filter by done.
  intros a b [_ Ha]%list_elem_of_filter [_ Hb]%list_elem_of_filter. by apply Hc.
Qed.

Lemma grow_unique engines (c : cache) :
  unique_assign c → unique_assign (grow engines c).
Proof.
  intros Hc. apply grow_ind; [done|]. intros c' e idx Hc' _ _ _ a b.
  rewrite !elem_of_app, !list_elem_of_singleton.
  intros [Ha| ->] [Hb| ->] He Hs Hnz; simpl in *; (done || by auto || congruence).
Qed.

Lemma release_unique scans (c : cache) :
  unique_assign c → unique_assign (release scans c).
Proof.
  assert (∀ kv, kv ∈ release scans c → escanid kv.2 ≠ 0 → kv ∈ c) as Hin.
  { unfold release. intros kv ([k x] & -> & Hkx)%list_elem_of_fmap.
    unfold prod_map, release_slot. simpl.
    destruct (lfound_scan scans x); [done|]. simpl. done. }
  intros Hc a b Ha Hb He Hs Hnz. apply Hc; (done || apply Hin; congruence).
Qed.

Lemma assign_scan_unique (c : cache) s :
  unique_assign c → unique_assign (assign_scan c s).
Proof.
  intros Hc a' b' [i Ha']%list_elem_of_lookup_1 [j Hb']%list_elem_of_lookup_1.
  apply assign_scan_entry_inv in Ha' as (a & Ha & Hca).
  apply assign_scan_entry_inv in Hb' as (b & Hb & Hcb).
  pose proof (list_elem_of_lookup_2 _ _ _ Ha) as Hina.
  pose proof (list_elem_of_lookup_2 _ _ _ Hb) as Hinb.
  destruct Hca as [->|[Hta ->]], Hcb as [->|[Htb ->]]; simpl; intros He Hs Hnz.
  - by apply Hc.
  - apply target_Some in Htb as (_ & b0 & Hb0 & Heb & [[Hsb _]|[_ [Hno _]]]); simplify_eq.
    + apply Hc; (done || congruence).
    + destruct (Hno a Hina). split; congruence.
  - apply target_Some in Hta as (_ & a0 & Ha0 & Hea & [[Hsa _]|[_ [Hno _]]]); simplify_eq.
    + apply Hc; (done || congruence).
    + destruct (Hno b Hinb). split; congruence.
  - congruence.
Qed.

Lemma assign_unique scans (c : cache) :
  unique_assign c → unique_assign (assign scans c).
Proof.
  intros Hc. unfold assign. apply foldl_invariant; [done|].
  intros c' s _. apply assign_scan_unique.
Qed.

Lemma reconcile_inv engines scans (c : cache) :
  cache_inv c → cache_inv (reconcile engines scans c).
Proof.
  intros (Hok & Hs & Hu). split_and!.
  - by apply reconcile_dict_ok.
  - by apply assign_slot_inv, release_slot_inv, grow_slot_inv, prune_slot_inv.
  - by apply assign_unique, release_unique, grow_unique, prune_unique.
Qed.

Lemma reachable_inv (c : cache) : reachable c → cache_inv c.
Proof.
  induction 1 as [|engines scans c _ IH]; [|by apply reconcile_inv].
  split_and!; [apply NoDup_nil_2|done|]. intros a b Ha. by apply elem_of_nil in Ha.
Qed.

Lemma dict_ok_lookup (c : cache) k x1 x2 :
  dict_ok c → (k, x1) ∈ c → (k, x2) ∈ c → x1 = x2.
Proof.
  unfold dict_ok. induction c as [|[k' x'] c IH]; csimpl.
  { intros _ H. by apply elem_of_nil in H. }
  intros [Hk Hnd]%NoDup_cons [?|H1]%elem_of_cons [?|H2]%elem_of_cons; simplify_eq.
  - done.
  - destruct Hk. apply list_elem_of_fmap. by exists (k', x2).
  - destruct Hk. apply list_elem_of_fmap. by exists (k', x1).
  - by apply IH.
Qed.

Lemma assign_nil scans : assign scans [] = [].
Proof. apply length_zero_iff_nil. by rewrite assign_length. Qed.

Lemma NoDup_fmap_eq {A B} (f : A → B) (l : list A) x y :
  NoDup (f <$> l) → x ∈ l → y ∈ l → f x = f y → x = y.
Proof.
  induction l as [|z l IH]; csimpl.
  { intros _ H. by apply elem_of_nil in H. }
  intros [Hz Hnd]%NoDup_cons [->|Hx]%elem_of_cons [->|Hy]%elem_of_cons Hf.
  - done.
  - destruct Hz. rewrite Hf. by apply list_elem_of_fmap_2.
  - destruct Hz. rewrite <-Hf. by apply list_elem_of_fmap_2.
  - by apply IH.
Qed.

(** ** Duration samples *)

Section DurationFacts.
Variable strptime : string → option Q.

Lemma minutes_nonneg (a b : Q) : (b <= a)%Q → (0 <= (a - b) / 60)%Q.
Proof.
  intros H. apply Qle_shift_div_l; [done|].
  rewrite Qmult_0_l. unfold Qminus. by apply Qle_minus_iff in H.
Qed.

Lemma classify_Some s now :
  is_Some (parse_date strptime (dateCreated s)) ↔ is_Some (classify strptime s now).
Proof.
  unfold classify. destruct (parse_date strptime (dateCreated s)); split; intros [? ?]; by eauto.
Qed.

Lemma pulling_stage (z : Z) : z ∈ [1; 2; 10] ↔ z = 1 ∨ z = 2 ∨ z = 10.
Proof. rewrite !elem_of_cons, elem_of_nil. tauto. Qed.

Lemma full_Some s now d q :
  classify strptime s now = Some d →
  full d = Some q ↔
  (stage_id s = 10 ∨ 1 ≤ stage_id s ≤ 6) ∧
  ∃ t, parse_date strptime (dateCreated s) = Some t ∧ q = ((now - t) / 60)%Q.
Proof.
  unfold classify. destruct (parse_date strptime (dateCreated s)) as [t0|]; [|done].
  intros [= <-]. simpl.
  repeat case_bool_decide; simpl; split;
    try (intros [= <-]; split; [lia|by exists t0]);
    try (intros [? (t & [= <-] & ->)]; done || lia); try done.
Qed.

Lemma pulling_Some s now d q :
  classify strptime s now = Some d →
  pulling d = Some q ↔
  stage_id s ∈ [1; 2; 10] ∧
  ∃ t, parse_date strptime (dateCreated s) = Some t ∧ q = ((now - t) / 60)%Q.
Proof.
  unfold classify. destruct (parse_date strptime (dateCreated s)) as [t0|]; [|done].
  intros [= <-]. simpl. case_bool_decide; split.
  - intros [= <-]. split; [done|by exists t0].
  - by intros [_ (t & [= <-] & ->)].
  - done.
  - by intros [? _].
Qed.

Lemma queued_Some s now d q :
  classify strptime s now = Some d →
  queued d = Some q ↔
  stage_id s = 3 ∧
  ∃ t, parse_date strptime (queuedOn s) = Some t ∧ (0 < t)%Q
       ∧ q = ((now - t) / 60)%Q.
Proof.
  unfold classify. destruct (parse_date strptime (dateCreated s)) as [t0|]; [|done].
  intros [= <-]. simpl.
  case_bool_decide as Hp; [rewrite pulling_stage in Hp; split; [done|lia]|].
  case_bool_decide as H3; [|split; [done|by intros [? _]]].
  unfold scanini_of.
  destruct (parse_date strptime (queuedOn s)) as [t|]; simpl.
  - destruct (Qlt_le_dec 0 t) as [Hpos|Hneg]; split.
    + intros [= <-]. split; [done|by exists t].
    + by intros [_ (t' & [= <-] & _ & ->)].
    + done.
    + intros [_ (t' & [= <-] & Hpos & _)]. by apply Qlt_not_le in Hpos.
  - split; [done|]. by intros [_ (t' & ? & _)].
Qed.

Lemma scanning_Some s now d q :
  classify strptime s now = Some d →
  scanning d = Some q ↔
  4 ≤ stage_id s ≤ 6 ∧
  ∃ t, parse_date strptime (engineStartedOn s) = Some t ∧ (0 < t)%Q
       ∧ q = ((default now (parse_date strptime (completedOn s)) - t) / 60)%Q.
Proof.
  unfold classify. destruct (parse_date strptime (dateCreated s)) as [t0|]; [|done].
  intros [= <-]. simpl.
  case_bool_decide as Hp; [rewrite pulling_stage in Hp; split; [done|lia]|].
  case_bool_decide as H3; [split; [done|lia]|].
  destruct (bool_decide (4 ≤ stage_id s) && bool_decide (stage_id s ≤ 6)) eqn:E.
  2:{ split; [done|]. intros [[??] _].
      rewrite !bool_decide_eq_true_2 in E by done. done. }
  apply andb_true_iff in E as [?%bool_decide_eq_true ?%bool_decide_eq_true].
  unfold scanini_of.
  destruct (parse_date strptime (engineStartedOn s)) as [t|]; simpl.
  - destruct (Qlt_le_dec 0 t) as [Hpos|Hneg]; split.
    + intros [= <-]. split; [done|by exists t].
    + by intros [_ (t' & [= <-] & _ & ->)].
    + done.
    + intros [_ (t' & [= <-] & Hpos & _)]. by apply Qlt_not_le in Hpos.
  - split; [done|]. by intros [_ (t' & ? & _)].
Qed.
End DurationFacts.

Lemma add_sample_app lbls v l :
  add_sample lbls v l = l ++ match v with Some q => [Sample lbls q] | None => [] end.
Proof. destruct v; simpl; [done|by rewrite app_nil_r]. Qed.

Lemma scan_metrics_emitted strptime engines clock scans n m :
  Forall (λ s, is_Some (parse_date strptime (dateCreated s))) scans →
  scan_metrics strptime engines clock n scans m =
  Some (Metrics (metric1 m)
          (metric2 m ++ emitted pulling strptime engines clock n scans)
          (metric3 m ++ emitted queued strptime engines clock n scans)
          (metric4 m ++ emitted scanning strptime engines clock n scans)
          (metric5 m ++ emitted full strptime engines clock n scans)).
Proof.
  intros Hall. revert n m.
  induction Hall as [|s scans Hs _ IH]; intros n m; simpl.
  { rewrite !app_nil_r. by destruct m. }
  apply (classify_Some strptime s (clock n)) in Hs as [d Hd].
  rewrite Hd, IH. simpl. unfold add_durations. simpl.
  by rewrite !add_sample_app, <-!app_assoc.
Qed.

(** * The scenarios of the specification, evaluated *)

(** A: an engine of capacity 2 and no scan. *)
Example scenario_A :
  collect strptime_utc (λ _, eleven) [E1] [] enginelist_init =
  ([((1, 1), idle_slot 1); ((1, 2), idle_slot 2)],
   Some (Metrics [Sample ["1"; "E1"; "1"; "Idle"]%string 0%Q;
                  Sample ["1"; "E1"; "2"; "Idle"]%string 0%Q] [] [] [] [])).
Proof. reflexivity. Qed.

(** B: the same engine and scan 7 at stage 4 on it. *)
Example scenario_B :
  collect strptime_utc (λ _, eleven) [E1] [S7] enginelist_init =
  ([((1, 1), busy_slot 1 7 Scanning); ((1, 2), idle_slot 2)],
   Some (Metrics [Sample ["1"; "E1"; "1"; "Scanning"]%string 1%Q;
                  Sample ["1"; "E1"; "2"; "Idle"]%string 0%Q]
                 [] []
                 [Sample ["7"; "1"; "E1"; "0"; "999999"]%string (3600 # 60)%Q]
                 [Sample ["7"; "1"; "E1"; "0"; "999999"]%string (7200 # 60)%Q])).
Proof. reflexivity. Qed.

(** C: a queued scan whose queued-at text does not parse. *)
Example scenario_C :
  (collect strptime_utc (λ _, eleven) [E1] [S13] enginelist_init).2 =
  Some (Metrics [Sample ["1"; "E1"; "1"; "Queued"]%string 1%Q;
                 Sample ["1"; "E1"; "2"; "Idle"]%string 0%Q]
                [] [] []
                [Sample ["13"; "1"; "E1"; "0"; "999999"]%string (7200 # 60)%Q]).
Proof. reflexivity. Qed.

(** D: the capacity drops from 2 to 1 while slot 2 is busy. *)
Example scenario_D :
  reconcile [E1] [S7; S14] enginelist_init
  = [((1, 1), busy_slot 1 7 Scanning); ((1, 2), busy_slot 2 14 Queued)]
  ∧ reconcile [E1_shrunk] [S7; S14] (reconcile [E1] [S7; S14] enginelist_init)
    = [((1, 1), busy_slot 1 7 Scanning)].
Proof. split; reflexivity. Qed.

(** E: the scan of a busy slot leaves the queue. *)
Example scenario_E :
  reconcile [E1] [] (reconcile [E1] [S7] enginelist_init)
  = [((1, 1), idle_slot 1); ((1, 2), idle_slot 2)].
Proof. reflexivity. Qed.

(** * Main theorems *)

(** C1, as amended. On a pass whose engine list is empty, prune finds no
    engine for any key and removes every slot: whatever the scan list,
    the cache is empty after the pass. *)
Theorem no_engines_empties_cache scans (c : cache) :
  dict_ok c → reconcile [] scans c = [].
Proof.
  intros Hok. unfold reconcile. rewrite prune_nil_engines by done.
  unfold grow. simpl. apply assign_nil.
Qed.

Lemma no_engines_empties_cache_witness :
  reconcile [] [S7] (reconcile [E1] [S7] enginelist_init) = [].
Proof.
  apply no_engines_empties_cache.
  apply (bool_decide_unpack _). vm_compute. exact I.
Defined.

(** C1, counterexample. The cache holds slots 1 and 2 of engine 1, slot 1
    busy with scan 7; after a pass with no engine and no scan, slot 1 is
    gone. *)
Lemma no_engines_retains_counterexample :
  let c := reconcile [E1] [S7] enginelist_init in
  (∃ x, ((1, 1), x) ∈ c ∧ escanid x = 7)
  ∧ ¬ ∃ x, ((1, 1), x) ∈ reconcile [] [] c.
Proof.
  split.
  - eexists. split; [vm_compute; left|done].
  - intros (x & Hx). vm_compute in Hx. by apply elem_of_nil in Hx.
Qed.

(** C3. Reconciliation is idempotent: a second pass with the same two
    snapshots leaves the cache of the first pass as it is. *)
Theorem reconcile_twice engines scans (c : cache) :
  dict_ok c →
  reconcile engines scans (reconcile engines scans c) = reconcile engines scans c.
Proof.
  intros Hok. set (c1 := reconcile engines scans c).
  assert (prune engines c1 = c1) as Hp.
  { rewrite prune_filter by by apply reconcile_dict_ok.
    apply filter_all, Forall_forall. intros kv Hkv.
    destruct (reconcile_keys_found engines scans c kv.1 Hok) as [?|(e & ? & ? & ?)];
      [by apply list_elem_of_fmap_2|done|].
    apply lfound_engine_true. exists e. split_and!; [done..|lia]. }
  assert (grow engines c1 = c1) as Hg.
  { apply grow_saturated. intros e idx He Hidx. unfold c1.
    rewrite reconcile_keys. by apply grow_complete. }
  assert (release scans c1 = c1) as Hr.
  { apply release_fixed. apply assign_settled, release_settled. }
  unfold reconcile at 1. fold c1. rewrite Hp, Hg, Hr.
  apply assign_idempotent.
Qed.

Lemma reconcile_twice_witness :
  let c := reconcile [E1] [S7] enginelist_init in
  reconcile [E1; E0] [S8; S7] (reconcile [E1; E0] [S8; S7] c)
  = reconcile [E1; E0] [S8; S7] c.
Proof.
  apply reconcile_twice.
  apply (bool_decide_unpack _). vm_compute. exact I.
Defined.

(** C4. Capacity bound. For engines with pairwise distinct ids and
    capacities that are not negative, after a pass the slots keyed to an
    engine of the list are as many as its [maxScans], and every slot that
    is left has an engine of the list with its id and a capacity that
    reaches its index. *)
Theorem capacity_bound engines scans (c : cache) :
  reachable c →
  NoDup (engine_id <$> engines) →
  (∀ e, e ∈ engines → 0 ≤ maxScans e) →
  (∀ e, e ∈ engines →
     Z.of_nat (length (filter (λ kv, kv.1.1 = engine_id e)
                              (reconcile engines scans c))) = maxScans e)
  ∧ (∀ k x, (k, x) ∈ reconcile engines scans c →
       ∃ e, e ∈ engines ∧ engine_id e = k.1 ∧ 1 ≤ k.2 ≤ maxScans e).
Proof.
  intros Hr Hids Hcap. set (c1 := reconcile engines scans c).
  destruct (reachable_inv c Hr) as (Hok & _).
  destruct (reachable_inv c1 (reachable_pass engines scans c Hr)) as (Hok1 & Hinv1 & _).
  assert (∀ k x, (k, x) ∈ c1 →
            ∃ e, e ∈ engines ∧ engine_id e = k.1 ∧ 1 ≤ k.2 ≤ maxScans e) as Hback.
  { intros k x Hkx.
    rewrite Forall_forall in Hinv1. destruct (Hinv1 _ Hkx) as (_ & _ & Hidx & _).
    destruct (reconcile_keys_found engines scans c k Hok) as [Hf|?];
      [by apply (list_elem_of_fmap_2 fst _ (k, x))| |done].
    apply lfound_engine_true in Hf as (e & ? & ? & ?). exists e. simpl in *. done. }
  split; [|done]. intros e He.
  set (keys := (filter (λ kv : (Z * Z) * slot, kv.1.1 = engine_id e) c1).*1).
  assert (keys ≡ₚ (λ idx, (engine_id e, idx)) <$> seqZ 1 (maxScans e)) as Hperm.
  { apply NoDup_Permutation.
    - eapply (dict_ok_sublist _ c1); [apply sublist_filter|done].
    - apply NoDup_fmap_2_strong; [|apply NoDup_seqZ]. by intros ?? _ _ [=].
    - intros k. unfold keys. rewrite !list_elem_of_fmap. split.
      + intros ([k' x] & -> & [Hk Hin]%list_elem_of_filter). simpl in *.
        destruct (Hback _ _ Hin) as (e' & He' & Hid & Hidx).
        assert (e' = e) as -> by (eapply NoDup_fmap_eq; [done..|congruence]).
        exists k'.2. split; [destruct k'; simpl in *; congruence|].
        apply elem_of_seqZ. lia.
      + intros (idx & -> & Hidx%elem_of_seqZ).
        assert ((engine_id e, idx) ∈ c1.*1) as Hin.
        { unfold c1. rewrite reconcile_keys. apply grow_complete; [done|lia]. }
        apply list_elem_of_fmap in Hin as (kv & Hkv & Hin).
        exists kv. split; [done|]. apply list_elem_of_filter. split; [|done].
        by rewrite <-Hkv. }
  transitivity (Z.of_nat (length keys)); [unfold keys; by rewrite length_fmap|].
  rewrite Hperm, length_fmap, length_seqZ. specialize (Hcap e He). lia.
Qed.

Lemma capacity_bound_witness :
  (∀ e, e ∈ [E1; E0] →
     Z.of_nat (length (filter (λ kv, kv.1.1 = engine_id e)
       (reconcile [E1; E0] [S7] (reconcile [E1] [S7] enginelist_init)))) = maxScans e)
  ∧ (∀ k x, (k, x) ∈ reconcile [E1; E0] [S7] (reconcile [E1] [S7] enginelist_init) →
       ∃ e, e ∈ [E1; E0] ∧ engine_id e = k.1 ∧ 1 ≤ k.2 ≤ maxScans e).
Proof.
  apply capacity_bound.
  - apply reachable_pass, reachable_init.
  - apply (bool_decide_unpack _). vm_compute. exact I.
  - apply Forall_forall. repeat constructor; by vm_compute.
Defined.

(** C5. Conservation. After a pass, a slot with a nonzero [escanid] has a
    scan of the snapshot with that id, a stage from 3 to 6 and an engine
    member whose id is the engine id of the slot (which is the engine id
    of its key); a slot without such a scan is free and Idle. *)
Theorem conservation engines scans (c : cache) k x :
  reachable c → (k, x) ∈ reconcile engines scans c →
  let backed :=
    ∃ s, s ∈ scans ∧ scan_id s = escanid x ∧ 3 ≤ stage_id s ≤ 6
         ∧ scan_engine s = Some (eid x) in
  eid x = k.1
  ∧ (escanid x ≠ 0 → backed)
  ∧ (¬ backed → escanid x = 0 ∧ estate x = Idle).
Proof.
  intros Hr Hin backed.
  destruct (reachable_inv _ (reachable_pass engines scans c Hr)) as (_ & Hinv & _).
  rewrite Forall_forall in Hinv.
  destruct (Hinv _ Hin) as (Hk & _ & _ & Hfree & Hbusy). simpl in *.
  assert (escanid x ≠ 0 → backed) as Hb.
  { intros Hnz.
    pose proof (assign_settled scans _ (release_settled scans
                  (grow engines (prune engines c)))) as Hs.
    rewrite Forall_forall in Hs. destruct (Hs _ Hin) as [Hf|[? _]]; [|done].
    apply lfound_scan_true in Hf as (s & Hs1 & Hs2 & Hs3 & Hs4). simpl in *.
    exists s. split; [done|]. split; [done|]. split; [done|].
    destruct (Hbusy Hnz) as [He _]. unfold scanengineid in Hs4.
    destruct (scan_engine s); simpl in *; [congruence|lia]. }
  split_and!; [done..|]. intros Hnb.
  destruct (decide (escanid x = 0)) as [Hz|Hnz]; [auto|]. destruct Hnb. by apply Hb.
Qed.

Lemma conservation_witness :
  let x := Slot 1 "E1" 1 "2" "0" "999999" 7 Scanning in
  let backed :=
    ∃ s, s ∈ [S7] ∧ scan_id s = escanid x ∧ 3 ≤ stage_id s ≤ 6
         ∧ scan_engine s = Some (eid x) in
  eid x = 1
  ∧ (escanid x ≠ 0 → backed)
  ∧ (¬ backed → escanid x = 0 ∧ estate x = Idle).
Proof.
  apply (conservation [E1] [S7] enginelist_init (1, 1)).
  - apply reachable_init.
  - vm_compute. left.
Defined.

(** C10, as amended. Uniqueness. After a pass, two entries keyed to the
    same engine that carry the same nonzero scan id are one and the same
    entry, however often the id occurs in the scan list. At every call of
    [setenginescan] in a pass, that is on the cache [d] left by the first
    [n] rounds of the loop of line 540, whatever [n], and for a nonzero
    scan id: when a slot of the engine carries the id, it is the only one
    and the call writes the state to it and nothing else; when none
    carries it, the first free slot of the engine gets the id and the
    state and nothing else changes; when the engine has no free slot
    either, the call changes nothing. Uniqueness holds after the call. *)
Theorem unique_assignment engines scans (c : cache) :
  reachable c →
  (∀ k1 x1 k2 x2,
     (k1, x1) ∈ reconcile engines scans c → (k2, x2) ∈ reconcile engines scans c →
     k1.1 = k2.1 → escanid x1 = escanid x2 → escanid x1 ≠ 0 →
     (k1, x1) = (k2, x2))
  ∧ (∀ n scanid engineid st, scanid ≠ 0 →
       let d := assign (take n scans) (release scans (grow engines (prune engines c))) in
       let d' := setenginescan scanid engineid st d in
       ((∃ i k x,
           d !! i = Some (k, x) ∧ carries engineid scanid (k, x)
           ∧ (∀ j y, d !! j = Some y → carries engineid scanid y → j = i)
           ∧ d' = <[i := (k, set_estate st x)]> d)
        ∨ ((∀ y, y ∈ d → ¬ carries engineid scanid y)
           ∧ ∃ i k x,
               d !! i = Some (k, x) ∧ carries engineid 0 (k, x)
               ∧ (∀ j y, d !! j = Some y → (j < i)%nat → ¬ carries engineid 0 y)
               ∧ d' = <[i := (k, set_estate st (set_escanid scanid x))]> d)
        ∨ ((∀ y, y ∈ d → ¬ carries engineid scanid y ∧ ¬ carries engineid 0 y)
           ∧ d' = d))
       ∧ (∀ k1 x1 k2 x2,
            (k1, x1) ∈ d' → (k2, x2) ∈ d' →
            k1.1 = k2.1 → escanid x1 = escanid x2 → escanid x1 ≠ 0 →
            (k1, x1) = (k2, x2))).
Proof.
  intros Hr.
  assert (∀ d : cache, dict_ok d → Forall (λ kv, eid kv.2 = kv.1.1) d → unique_assign d →
            ∀ k1 x1 k2 x2, (k1, x1) ∈ d → (k2, x2) ∈ d →
              k1.1 = k2.1 → escanid x1 = escanid x2 → escanid x1 ≠ 0 →
              (k1, x1) = (k2, x2)) as Hkeyed.
  { intros d Hd Hs Hud k1 x1 k2 x2 H1 H2 Hk Hs' Hnz. rewrite Forall_forall in Hs.
    pose proof (Hs _ H1) as He1. pose proof (Hs _ H2) as He2. simpl in *.
    assert (k1 = k2) as -> by (apply (Hud _ _ H1 H2); simpl; congruence).
    f_equal. by eapply dict_ok_lookup. }
  assert (∀ d : cache, Forall slot_inv d → Forall (λ kv, eid kv.2 = kv.1.1) d) as Hweak.
  { intros d Hd. eapply Forall_impl; [exact Hd|]. by intros kv (He & _). }
  split.
  { destruct (reachable_inv _ (reachable_pass engines scans c Hr)) as (Hok & Hinv & Hu).
    by apply Hkeyed; [|apply Hweak|]. }
  intros n scanid engineid st Hnz d d'.
  destruct (reachable_inv _ Hr) as (Hok0 & Hinv0 & Hu0).
  assert (dict_ok d) as Hok.
  { unfold dict_ok, d. rewrite assign_keys, release_keys.
    by apply grow_dict_ok, prune_dict_ok. }
  assert (Forall (λ kv : (Z * Z) * slot, eid kv.2 = kv.1.1) d) as Heid.
  { by apply Hweak, assign_slot_inv, release_slot_inv, grow_slot_inv, prune_slot_inv. }
  assert (unique_assign d) as Hu.
  { by apply assign_unique, release_unique, grow_unique, prune_unique. }
  clearbody d. clear Hok0 Hinv0 Hu0.
  assert (∀ i j (a b : (Z * Z) * slot),
            d !! i = Some a → d !! j = Some b → a.1 = b.1 → i = j) as Hpos.
  { intros i j a b Ha Hb Hab. apply (NoDup_lookup (d.*1) i j a.1); [done|..].
    - by rewrite list_lookup_fmap, Ha.
    - by rewrite list_lookup_fmap, Hb, Hab. }
  assert ((∃ i k x,
           d !! i = Some (k, x) ∧ carries engineid scanid (k, x)
           ∧ (∀ j y, d !! j = Some y → carries engineid scanid y → j = i)
           ∧ d' = <[i := (k, set_estate st x)]> d)
        ∨ ((∀ y, y ∈ d → ¬ carries engineid scanid y)
           ∧ ∃ i k x,
               d !! i = Some (k, x) ∧ carries engineid 0 (k, x)
               ∧ (∀ j y, d !! j = Some y → (j < i)%nat → ¬ carries engineid 0 y)
               ∧ d' = <[i := (k, set_estate st (set_escanid scanid x))]> d)
        ∨ ((∀ y, y ∈ d → ¬ carries engineid scanid y ∧ ¬ carries engineid 0 y)
           ∧ d' = d)) as Hcases.
  { unfold d', setenginescan.
    destruct (list_find (carries engineid scanid) d) as [[i [k x]]|] eqn:E1.
    - apply list_find_Some in E1 as (Hi & Hc & _). left. exists i, k, x.
      split_and!; [done..| |].
      + intros j y Hj [Hy1 Hy2]. destruct Hc as [Hc1 Hc2]. simpl in *.
        apply (Hpos j i y (k, x)); [done..|].
        apply Hu; simpl; [by eapply list_elem_of_lookup_2..|congruence|congruence|congruence].
      + rewrite list_insert_alter. apply list_alter_ext; [|done].
        intros y Hy. by simplify_eq.
    - apply list_find_None in E1. rewrite Forall_forall in E1.
      destruct (list_find (carries engineid 0) d) as [[i [k x]]|] eqn:E2.
      + apply list_find_Some in E2 as (Hi & Hc & Hmin). right. left.
        split; [done|]. exists i, k, x. split_and!; [done..| |].
        * intros j y Hj Hlt. by apply (Hmin j y).
        * rewrite list_insert_alter. apply list_alter_ext; [|done].
          intros y Hy. by simplify_eq.
      + apply list_find_None in E2. rewrite Forall_forall in E2.
        right. right. split; [|done]. intros y Hy. split; auto. }
  split; [done|].
  assert (∀ i (y a : (Z * Z) * slot), a ∈ <[i := y]> d → a = y ∨ a ∈ d) as Hins.
  { intros i y a [j Hj]%list_elem_of_lookup_1.
    apply list_lookup_insert_Some in Hj as [(_ & <- & _)|[_ Hj]]; [by left|].
    right. by eapply list_elem_of_lookup_2. }
  apply Hkeyed.
  - unfold dict_ok, d'. by rewrite setenginescan_keys.
  - destruct Hcases as [(i & k & x & Hi & Hc & _ & ->)
                       |[(_ & i & k & x & Hi & Hc & _ & ->)|(_ & ->)]]; [| |done].
    all: apply Forall_insert; [done|].
    all: rewrite Forall_forall in Heid.
    all: by apply (Heid (k, x)), list_elem_of_lookup_2 with i.
  - destruct Hcases as [(i & k & x & Hi & [Hc1 Hc2] & _ & ->)
                       |[(Hno & i & k & x & Hi & [Hc1 Hc2] & _ & ->)|(_ & ->)]]; [| |done].
    + pose proof (list_elem_of_lookup_2 _ _ _ Hi) as Hin.
      intros a b Ha Hb. simpl in *.
      apply Hins in Ha as [->|Ha]; apply Hins in Hb as [->|Hb];
        simpl; try done; intros He Hs Hz.
      * by apply (Hu (k, x) b).
      * by apply (Hu a (k, x)).
      * by apply Hu.
    + pose proof (list_elem_of_lookup_2 _ _ _ Hi) as Hin.
      intros a b Ha Hb. simpl in *.
      apply Hins in Ha as [->|Ha]; apply Hins in Hb as [->|Hb];
        simpl; try done; intros He Hs Hz.
      * destruct (Hno b Hb). split; congruence.
      * destruct (Hno a Ha). split; congruence.
      * by apply Hu.
Qed.

Lemma unique_assignment_witness :
  let c := reconcile [E1] [S7] enginelist_init in
  (∀ k1 x1 k2 x2,
     (k1, x1) ∈ reconcile [E1] [S7; S7] c → (k2, x2) ∈ reconcile [E1] [S7; S7] c →
     k1.1 = k2.1 → escanid x1 = escanid x2 → escanid x1 ≠ 0 →
     (k1, x1) = (k2, x2))
  ∧ (∀ n scanid engineid st, scanid ≠ 0 →
       let d := assign (take n [S7; S7]) (release [S7; S7] (grow [E1] (prune [E1] c))) in
       let d' := setenginescan scanid engineid st d in
       ((∃ i k x,
           d !! i = Some (k, x) ∧ carries engineid scanid (k, x)
           ∧ (∀ j y, d !! j = Some y → carries engineid scanid y → j = i)
           ∧ d' = <[i := (k, set_estate st x)]> d)
        ∨ ((∀ y, y ∈ d → ¬ carries engineid scanid y)
           ∧ ∃ i k x,
               d !! i = Some (k, x) ∧ carries engineid 0 (k, x)
               ∧ (∀ j y, d !! j = Some y → (j < i)%nat → ¬ carries engineid 0 y)
               ∧ d' = <[i := (k, set_estate st (set_escanid scanid x))]> d)
        ∨ ((∀ y, y ∈ d → ¬ carries engineid scanid y ∧ ¬ carries engineid 0 y)
           ∧ d' = d))
       ∧ (∀ k1 x1 k2 x2,
            (k1, x1) ∈ d' → (k2, x2) ∈ d' →
            k1.1 = k2.1 → escanid x1 = escanid x2 → escanid x1 ≠ 0 →
            (k1, x1) = (k2, x2))).
Proof.
  apply (unique_assignment [E1] [S7; S7]). apply reachable_pass, reachable_init.
Defined.

(** C10, counterexample. Engine 1 has one slot. In a pass over scans 7
    and 9, both at stage 4 on engine 1, from the empty cache, the first
    round gives the slot to scan 7. The call for scan 9 then finds no
    slot of the engine that carries 9 and no free slot of the engine: it
    neither updates a slot nor claims one, the cache is as before, and
    the pass ends with scan 9 in no slot. *)
Lemma unique_assignment_counterexample :
  let d := assign (take 1 [S7; S9])
             (release [S7; S9] (grow [E1_shrunk] (prune [E1_shrunk] enginelist_init))) in
  let d' := setenginescan (scan_id S9) 1 Scanning d in
  d = [((1, 1), Slot 1 "E1" 1 "1" "0" "999999" 7 Scanning)]
  ∧ scan_id S9 = 9 ∧ scan_engine S9 = Some 1 ∧ stage_id S9 = 4
  ∧ ¬ (∃ i k x,
         d !! i = Some (k, x) ∧ carries 1 9 (k, x)
         ∧ (∀ j y, d !! j = Some y → carries 1 9 y → j = i)
         ∧ d' = <[i := (k, set_estate Scanning x)]> d)
  ∧ ¬ ((∀ y, y ∈ d → ¬ carries 1 9 y)
       ∧ ∃ i k x,
           d !! i = Some (k, x) ∧ carries 1 0 (k, x)
           ∧ (∀ j y, d !! j = Some y → (j < i)%nat → ¬ carries 1 0 y)
           ∧ d' = <[i := (k, set_estate Scanning (set_escanid 9 x))]> d)
  ∧ d' = d
  ∧ reconcile [E1_shrunk] [S7; S9] enginelist_init = d.
Proof.
  split_and!; [done..| | |done|done].
  - intros (i & k & x & Hi & [_ Hc] & _). vm_compute in Hi.
    destruct i as [|i]; [|done]. by simplify_eq.
  - intros (_ & i & k & x & Hi & [_ Hc] & _). vm_compute in Hi.
    destruct i as [|i]; [|done]. by simplify_eq.
Qed.

(** C8, as amended. For a scan with a positive id, a stage from 3 to 6
    and an engine member with a positive id, the state written is Queued
    at stage 3 and Scanning at stages 4 to 6; when a slot of that engine
    carries the id, the first such slot gets the state and nothing else
    changes; when none does, the first slot of that engine with
    [escanid = 0], in the order of the dictionary, gets the id and the
    state; when the engine has no such slot either, nothing changes. *)
Theorem assignment_rule (c : cache) s e :
  0 < scan_id s → scan_engine s = Some e → 0 < e → 3 ≤ stage_id s ≤ 6 →
  let st := scanenginestatus (stage_id s) in
  (stage_id s = 3 → st = Queued)
  ∧ (4 ≤ stage_id s ≤ 6 → st = Scanning)
  ∧ (∀ i k x,
       c !! i = Some (k, x) → carries e (scan_id s) (k, x) →
       (∀ j y, c !! j = Some y → (j < i)%nat → ¬ carries e (scan_id s) y) →
       assign_scan c s = <[i := (k, set_estate st x)]> c)
  ∧ ((∀ y, y ∈ c → ¬ carries e (scan_id s) y) →
     (∀ i k x,
        c !! i = Some (k, x) → carries e 0 (k, x) →
        (∀ j y, c !! j = Some y → (j < i)%nat → ¬ carries e 0 y) →
        assign_scan c s = <[i := (k, set_estate st (set_escanid (scan_id s) x))]> c)
     ∧ ((∀ y, y ∈ c → ¬ carries e 0 y) → assign_scan c s = c)).
Proof.
  intros Hid Heng He Hst st.
  assert (scanengineid s = e) as Hse by (unfold scanengineid; by rewrite Heng).
  assert (effective s) as Heff by (unfold effective; rewrite Hse; lia).
  assert (∀ i a f, c !! i = Some a → target s c = Some i →
            (∀ y, c !! i = Some y → f y = (a.1, claim (scan_id s) st a.2)) →
            assign_scan c s = <[i := f a]> c) as Hset.
  { intros i a f Ha Ht Hf. rewrite assign_scan_target, Ht, list_insert_alter.
    apply list_alter_ext; [|done]. intros y Hy. simplify_eq.
    rewrite (Hf a Ha). by destruct a. }
  split_and!.
  - intros H3. unfold st, scanenginestatus. by rewrite bool_decide_eq_true_2.
  - intros H4. unfold st, scanenginestatus.
    rewrite bool_decide_eq_false_2 by lia.
    by rewrite !bool_decide_eq_true_2 by lia.
  - intros i k x Hi [Hc1 Hc2] Hmin. simpl in *.
    apply (Hset i (k, x) (λ kv, (kv.1, set_estate st kv.2))); [done| |].
    + apply target_Some. split; [done|]. exists (k, x). rewrite Hse.
      split_and!; [done..|]. left. done.
    + intros y Hy. simplify_eq. simpl. unfold claim. by rewrite claim_same.
  - intros Hno. split.
    + intros i k x Hi [Hc1 Hc2] Hmin. simpl in *.
      apply (Hset i (k, x) (λ kv, (kv.1, set_estate st (set_escanid (scan_id s) kv.2))));
        [done| |].
      * apply target_Some. split; [done|]. exists (k, x). rewrite Hse.
        split_and!; [done..|]. right. done.
      * intros y Hy. by simplify_eq.
    + intros Hfull. rewrite assign_scan_target.
      rewrite (proj2 (target_None s c)); [done|]. right. rewrite Hse. auto.
Qed.

Lemma assignment_rule_witness :
  let c := reconcile [E1] [] enginelist_init in
  let st := scanenginestatus (stage_id S7) in
  (stage_id S7 = 3 → st = Queued)
  ∧ (4 ≤ stage_id S7 ≤ 6 → st = Scanning)
  ∧ (∀ i k x,
       c !! i = Some (k, x) → carries 1 (scan_id S7) (k, x) →
       (∀ j y, c !! j = Some y → (j < i)%nat → ¬ carries 1 (scan_id S7) y) →
       assign_scan c S7 = <[i := (k, set_estate st x)]> c)
  ∧ ((∀ y, y ∈ c → ¬ carries 1 (scan_id S7) y) →
     (∀ i k x,
        c !! i = Some (k, x) → carries 1 0 (k, x) →
        (∀ j y, c !! j = Some y → (j < i)%nat → ¬ carries 1 0 y) →
        assign_scan c S7 = <[i := (k, set_estate st (set_escanid (scan_id S7) x))]> c)
     ∧ ((∀ y, y ∈ c → ¬ carries 1 0 y) → assign_scan c S7 = c)).
Proof.
  apply (assignment_rule (reconcile [E1] [] enginelist_init) S7 1);
    [reflexivity|reflexivity|reflexivity|by vm_compute].
Defined.

(** C8, counterexample. Engine 0 has one slot, free; scan 8 is at stage 4
    and its engine member, not null, has id 0. The guard
    [scanengineid > 0] of line 547 skips the scan: the slot stays free. *)
Lemma assignment_rule_counterexample :
  let c := reconcile [E0] [] enginelist_init in
  stage_id S8 = 4 ∧ scan_engine S8 = Some 0
  ∧ (∀ y, y ∈ c → ¬ carries 0 (scan_id S8) y)
  ∧ (∃ k x, c !! 0%nat = Some (k, x) ∧ carries 0 0 (k, x))
  ∧ assign_scan c S8 = c
  ∧ reconcile [E0] [S8] c = c.
Proof.
  split_and!; [done|done| | |done|done].
  - intros y Hy [_ Hc]. vm_compute in Hy.
    apply list_elem_of_singleton in Hy as ->. done.
  - eexists _, _. split; [vm_compute; reflexivity|done].
Qed.

(** C6, as amended. Every duration of a scan is at least 0 when its
    creation, queued-at and engine-start timestamps are not after [now]
    and, where a completion timestamp parses, it is not before the
    engine start. *)
Theorem durations_nonneg strptime s now d :
  classify strptime s now = Some d →
  (∀ t, parse_date strptime (dateCreated s) = Some t → (t <= now)%Q) →
  (∀ t, parse_date strptime (queuedOn s) = Some t → (t <= now)%Q) →
  (∀ t, parse_date strptime (engineStartedOn s) = Some t → (t <= now)%Q) →
  (∀ t t', parse_date strptime (engineStartedOn s) = Some t →
           parse_date strptime (completedOn s) = Some t' → (t <= t')%Q) →
  ∀ q, full d = Some q ∨ pulling d = Some q ∨ queued d = Some q ∨ scanning d = Some q →
       (0 <= q)%Q.
Proof.
  intros Hd Hc Hq He Hend q [H|[H|[H|H]]].
  - apply (full_Some _ _ _ _ _ Hd) in H as (_ & t & Ht & ->).
    by apply minutes_nonneg, Hc.
  - apply (pulling_Some _ _ _ _ _ Hd) in H as (_ & t & Ht & ->).
    by apply minutes_nonneg, Hc.
  - apply (queued_Some _ _ _ _ _ Hd) in H as (_ & t & Ht & _ & ->).
    by apply minutes_nonneg, Hq.
  - apply (scanning_Some _ _ _ _ _ Hd) in H as (_ & t & Ht & _ & ->).
    apply minutes_nonneg.
    destruct (parse_date strptime (completedOn s)) as [t'|] eqn:E; simpl; eauto.
Qed.

Lemma durations_nonneg_witness : (0 <= 3600 # 60)%Q.
Proof.
  apply (durations_nonneg strptime_utc S7 eleven D7).
  - reflexivity.
  - intros t [= <-]. by vm_compute.
  - intros t [=].
  - intros t [= <-]. by vm_compute.
  - intros t t' _ [=].
  - right; right; right. reflexivity.
Defined.

(** C6, counterexample. Every timestamp of scan 9 is before [now], and
    its scanning duration, completion minus engine start, is -60. *)
Lemma durations_nonneg_counterexample :
  parse_date strptime_utc (dateCreated S9) = Some 1580547600%Q
  ∧ parse_date strptime_utc (engineStartedOn S9) = Some 1580551200%Q
  ∧ parse_date strptime_utc (completedOn S9) = Some 1580547600%Q
  ∧ (1580551200 <= eleven)%Q
  ∧ ∃ d q, classify strptime_utc S9 eleven = Some d ∧ scanning d = Some q
           ∧ (q < 0)%Q.
Proof.
  split_and!; [reflexivity..|by vm_compute|].
  eexists _, _. split_and!; [reflexivity..|by vm_compute].
Qed.

(** C7, as amended. A scan whose creation date parses gets a scanning
    sample exactly when its stage is 4, 5 or 6 and its engine start
    parses to a value above 0; the value is the minutes from the engine
    start to the completion timestamp when that parses, to [now]
    otherwise; without a parsable engine start there is no sample. *)
Theorem scanning_rule strptime s now d :
  classify strptime s now = Some d →
  (is_Some (scanning d) ↔
     4 ≤ stage_id s ≤ 6 ∧
     ∃ t, parse_date strptime (engineStartedOn s) = Some t ∧ (0 < t)%Q)
  ∧ (∀ t, 4 ≤ stage_id s ≤ 6 →
       parse_date strptime (engineStartedOn s) = Some t → (0 < t)%Q →
       (∀ t', parse_date strptime (completedOn s) = Some t' →
              scanning d = Some ((t' - t) / 60)%Q)
       ∧ (parse_date strptime (completedOn s) = None →
          scanning d = Some ((now - t) / 60)%Q))
  ∧ (parse_date strptime (engineStartedOn s) = None → scanning d = None).
Proof.
  intros Hd. split_and!.
  - split.
    + intros [q (? & t & ? & ? & _)%(scanning_Some _ _ _ _ _ Hd)]. eauto.
    + intros (? & t & ? & ?). eexists.
      apply (scanning_Some _ _ _ _ _ Hd). split; [done|]. by exists t.
  - intros t Hst Ht Hpos. split.
    + intros t' Ht'. apply (scanning_Some _ _ _ _ _ Hd). split; [done|].
      exists t. by rewrite Ht'.
    + intros Hnone. apply (scanning_Some _ _ _ _ _ Hd). split; [done|].
      exists t. by rewrite Hnone.
  - intros Hnone. destruct (scanning d) as [q|] eqn:E; [|done].
    apply (scanning_Some _ _ _ _ _ Hd) in E as (_ & t & ? & _). congruence.
Qed.

Lemma scanning_rule_witness :
  (is_Some (scanning D7) ↔
     4 ≤ stage_id S7 ≤ 6 ∧
     ∃ t, parse_date strptime_utc (engineStartedOn S7) = Some t ∧ (0 < t)%Q)
  ∧ (∀ t, 4 ≤ stage_id S7 ≤ 6 →
       parse_date strptime_utc (engineStartedOn S7) = Some t → (0 < t)%Q →
       (∀ t', parse_date strptime_utc (completedOn S7) = Some t' →
              scanning D7 = Some ((t' - t) / 60)%Q)
       ∧ (parse_date strptime_utc (completedOn S7) = None →
          scanning D7 = Some ((eleven - t) / 60)%Q))
  ∧ (parse_date strptime_utc (engineStartedOn S7) = None → scanning D7 = None).
Proof. apply (scanning_rule strptime_utc S7 eleven D7). reflexivity. Defined.

(** C7, counterexample. Scan 10 is at stage 4 and its engine start
    parses, to 0; it gets no scanning sample. *)
Lemma scanning_rule_counterexample :
  stage_id S10 = 4
  ∧ parse_date strptime_utc (engineStartedOn S10) = Some 0%Q
  ∧ ∃ d, classify strptime_utc S10 eleven = Some d ∧ scanning d = None.
Proof. split_and!; [done..|]. by eexists. Qed.

(** C9. At stage 3 a queued sample, and at stages 4 to 6 a scanning
    sample, is there only when the timestamp parses to a value above 0;
    the scan whose timestamp parses to 0 or less is classified as the
    same scan with a timestamp that is absent or does not parse. *)
Theorem epoch_threshold strptime s now :
  (∀ d q, classify strptime s now = Some d → queued d = Some q →
     ∃ t, parse_date strptime (queuedOn s) = Some t ∧ (0 < t)%Q)
  ∧ (∀ d q, classify strptime s now = Some d → scanning d = Some q →
     ∃ t, parse_date strptime (engineStartedOn s) = Some t ∧ (0 < t)%Q)
  ∧ (∀ t v, stage_id s = 3 →
       parse_date strptime (queuedOn s) = Some t → (t <= 0)%Q →
       parse_date strptime v = None →
       classify strptime s now = classify strptime (with_queuedOn v s) now
       ∧ classify strptime s now ≫= queued = None)
  ∧ (∀ t v, 4 ≤ stage_id s ≤ 6 →
       parse_date strptime (engineStartedOn s) = Some t → (t <= 0)%Q →
       parse_date strptime v = None →
       classify strptime s now = classify strptime (with_engineStartedOn v s) now
       ∧ classify strptime s now ≫= scanning = None).
Proof.
  split_and!.
  - intros d q Hd (_ & t & ? & ? & _)%(queued_Some _ _ _ _ _ Hd). eauto.
  - intros d q Hd (_ & t & ? & ? & _)%(scanning_Some _ _ _ _ _ Hd). eauto.
  - intros t v H3 Ht Hneg Hv. unfold classify. simpl.
    destruct (parse_date strptime (dateCreated s)) as [t0|]; [|done]. simpl.
    rewrite H3. simpl. unfold scanini_of. rewrite Ht, Hv. simpl.
    destruct (Qlt_le_dec 0 t) as [Hpos|_]; [by apply Qlt_not_le in Hpos|].
    done.
  - intros t v Hst Ht Hneg Hv. unfold classify. simpl.
    destruct (parse_date strptime (dateCreated s)) as [t0|]; [|done]. simpl.
    rewrite (bool_decide_eq_false_2 (stage_id s ∈ [1; 2; 10]))
      by (rewrite pulling_stage; lia).
    rewrite (bool_decide_eq_false_2 (stage_id s = 3)) by lia.
    rewrite (bool_decide_eq_true_2 (4 ≤ stage_id s)) by lia.
    rewrite (bool_decide_eq_true_2 (stage_id s ≤ 6)) by lia. simpl.
    unfold scanini_of. rewrite Ht, Hv. simpl.
    destruct (Qlt_le_dec 0 t) as [Hpos|_]; [by apply Qlt_not_le in Hpos|].
    done.
Qed.

(** C2, as amended. When the creation date of every scan parses, no
    exception leaves the pass, whatever the queued-at, engine-start and
    completion members are: each duration metric holds, scan after scan,
    the samples of [classify]; a scan whose queued-at (engine-start)
    member does not parse has no queued (scanning) sample; a scan whose
    completion member does not parse has its scanning sample run to
    [now]; and the full and pulling samples of a scan depend on its stage
    and creation date alone. *)
Theorem optional_timestamps strptime clock engines scans (c : cache) :
  Forall (λ s, is_Some (parse_date strptime (dateCreated s))) scans →
  (collect strptime clock engines scans c).2 =
    Some (Metrics (engine_metrics (reconcile engines scans c))
            (emitted pulling strptime engines clock 0 scans)
            (emitted queued strptime engines clock 0 scans)
            (emitted scanning strptime engines clock 0 scans)
            (emitted full strptime engines clock 0 scans))
  ∧ ∀ s now, s ∈ scans →
      ∃ d, classify strptime s now = Some d
        ∧ (parse_date strptime (queuedOn s) = None → queued d = None)
        ∧ (parse_date strptime (engineStartedOn s) = None → scanning d = None)
        ∧ (parse_date strptime (completedOn s) = None →
           ∀ t, 4 ≤ stage_id s ≤ 6 →
                parse_date strptime (engineStartedOn s) = Some t → (0 < t)%Q →
                scanning d = Some ((now - t) / 60)%Q)
        ∧ (∀ s' d', stage_id s' = stage_id s → dateCreated s' = dateCreated s →
                    classify strptime s' now = Some d' →
                    full d' = full d ∧ pulling d' = pulling d).
Proof.
  intros Hall. split.
  { unfold collect. simpl. by rewrite scan_metrics_emitted. }
  intros s now Hs. rewrite Forall_forall in Hall.
  destruct (proj1 (classify_Some strptime s now) (Hall s Hs)) as [d Hd].
  exists d. split_and!; [done|..].
  - intros Hnone. destruct (queued d) as [q|] eqn:E; [|done].
    apply (queued_Some _ _ _ _ _ Hd) in E as (_ & t & ? & _). congruence.
  - intros Hnone. destruct (scanning d) as [q|] eqn:E; [|done].
    apply (scanning_Some _ _ _ _ _ Hd) in E as (_ & t & ? & _). congruence.
  - intros Hnone t Hst Ht Hpos. apply (scanning_Some _ _ _ _ _ Hd).
    split; [done|]. exists t. by rewrite Hnone.
  - intros s' d' Hst Hdc Hd'. unfold classify in Hd, Hd'. rewrite Hdc, Hst in Hd'.
    destruct (parse_date strptime (dateCreated s)); [|done]. by simplify_eq.
Qed.

Lemma optional_timestamps_witness :
  (collect strptime_utc (λ _, eleven) [E1] [S7; S12] enginelist_init).2 =
  Some (Metrics
          (engine_metrics (reconcile [E1] [S7; S12] enginelist_init))
          (emitted pulling strptime_utc [E1] (λ _, eleven) 0 [S7; S12])
          (emitted queued strptime_utc [E1] (λ _, eleven) 0 [S7; S12])
          (emitted scanning strptime_utc [E1] (λ _, eleven) 0 [S7; S12])
          (emitted full strptime_utc [E1] (λ _, eleven) 0 [S7; S12])).
Proof.
  refine (proj1 (optional_timestamps strptime_utc (λ _, eleven) [E1] [S7; S12]
                   enginelist_init _)).
  repeat constructor; by eexists.
Defined.

(** C2, counterexample. Scan 11 has no creation date: line 594 raises
    outside any [try], and the pass yields no metric at all, not even the
    samples of scan 7. And scan 7, which has no completion date, keeps
    its scanning sample, measured up to [now]. *)
Lemma optional_timestamps_counterexample :
  dateCreated S11 = None
  ∧ (collect strptime_utc (λ _, eleven) [E1] [S7; S11] enginelist_init).2 = None
  ∧ completedOn S7 = None
  ∧ classify strptime_utc S7 eleven = Some D7
  ∧ scanning D7 = Some (3600 # 60)%Q.
Proof. split_and!; reflexivity. Qed.

(** * Further properties *)

(** ** More on the reconciliation pass *)

Lemma grow_elem_mono engines (c : cache) kv : kv ∈ c → kv ∈ grow engines c.
Proof.
  intros Hk. apply grow_ind; [done|]. intros c' e idx Hc' _ _ _.
  apply elem_of_app. by left.
Qed.

Lemma assign_frames scans (c : cache) : frame <$> assign scans c = frame <$> c.
Proof.
  apply list_eq_same_length with (length c);
    [by rewrite length_fmap|by rewrite length_fmap, assign_length|].
  intros i f a _ Hf Ha.
  apply list_lookup_fmap_Some in Hf as (f' & -> & Hf').
  apply list_lookup_fmap_Some in Ha as (a' & -> & Ha').
  by destruct (assign_future scans c i a' f' Ha' Hf') as (-> & _).
Qed.

Lemma release_frames scans (c : cache) : frame <$> release scans c = frame <$> c.
Proof.
  unfold release. rewrite <-list_fmap_compose. apply list_fmap_ext.
  intros _ [k x] _. unfold frame, release_slot. simpl.
  by destruct (lfound_scan scans x).
Qed.

Lemma grow_appends engines (c : cache) :
  ∃ added, grow engines c = c ++ added
    ∧ Forall (λ kv, ∃ e idx, e ∈ engines ∧ 1 ≤ idx ≤ maxScans e
                     ∧ kv = ((engine_id e, idx), new_slot e idx)) added.
Proof.
  apply grow_ind.
  - exists []. by rewrite app_nil_r.
  - intros c' e idx (added & -> & Hadded) He Hidx _.
    exists (added ++ [((engine_id e, idx), new_slot e idx)]).
    rewrite app_assoc. split; [done|]. apply Forall_app. split; [done|].
    apply Forall_singleton. by exists e, idx.
Qed.

(** X1. A pass keeps the surviving entries where they are, with their key
    and fields 0 to 5 as they were written when the slot was created, and
    puts the new slots after them. *)
Theorem survivors_keep_place engines scans (c : cache) :
  dict_ok c →
  ∃ added,
    frame <$> reconcile engines scans c =
      (frame <$> filter (λ kv, lfound_engine engines kv.1 = true) c) ++ added
    ∧ Forall (λ kv, ∃ e idx, e ∈ engines ∧ 1 ≤ idx ≤ maxScans e
                     ∧ kv = ((engine_id e, idx), new_slot e idx)) added.
Proof.
  intros Hok. unfold reconcile.
  rewrite assign_frames, release_frames, prune_filter by done.
  destruct (grow_appends engines (filter (λ kv, lfound_engine engines kv.1 = true) c))
    as (added & -> & Hadded).
  exists added. rewrite fmap_app. split; [|done]. f_equal.
  rewrite <-(list_fmap_id added) at 2. apply Forall_fmap_ext_1.
  eapply Forall_impl; [done|]. by intros kv (e & idx & _ & _ & ->).
Qed.

Lemma survivors_keep_place_witness :
  ∃ added,
    frame <$> reconcile [E1_shrunk] [S7] (reconcile [E1] [S7] enginelist_init) =
      (frame <$> filter (λ kv, lfound_engine [E1_shrunk] kv.1 = true)
                        (reconcile [E1] [S7] enginelist_init)) ++ added
    ∧ Forall (λ kv, ∃ e idx, e ∈ [E1_shrunk] ∧ 1 ≤ idx ≤ maxScans e
                     ∧ kv = ((engine_id e, idx), new_slot e idx)) added.
Proof.
  apply survivors_keep_place.
  apply (bool_decide_unpack _). vm_compute. exact I.
Defined.

(** X2. A slot keeps its scan: when the slot survives prune and the scan
    is still in the list, at a stage from 3 to 6 and on the engine of the
    slot, the slot carries the same scan after the pass. *)
Theorem assignment_sticky engines scans (c : cache) k x s :
  dict_ok c → (k, x) ∈ c → escanid x ≠ 0 →
  lfound_engine engines k = true →
  s ∈ scans → scan_id s = escanid x → 3 ≤ stage_id s ≤ 6 →
  scanengineid s = eid x →
  ∃ x', (k, x') ∈ reconcile engines scans c ∧ escanid x' = escanid x
        ∧ frame (k, x') = frame (k, x).
Proof.
  intros Hok Hin Hnz Hf Hs Hid Hst He.
  assert ((k, x) ∈ release scans (grow engines (prune engines c))) as Hr.
  { unfold release. apply list_elem_of_fmap.
    exists (k, x). split.
    - unfold prod_map, release_slot. simpl.
      rewrite (proj2 (lfound_scan_true scans x)); [done|]. by exists s.
    - apply grow_elem_mono. rewrite prune_filter by done.
      by apply list_elem_of_filter. }
  apply list_elem_of_lookup_1 in Hr as [i Hi].
  destruct (lookup_lt_is_Some_2 (reconcile engines scans c) i) as [[k' x'] Hi'].
  { unfold reconcile. rewrite assign_length. by eapply lookup_lt_Some. }
  destruct (assign_future scans _ i _ _ Hi Hi') as (Hfr & Hkeep & _).
  pose proof (frame_eid _ _ Hfr) as [Hk _]. simpl in *. subst k'.
  exists x'. split_and!; [by eapply list_elem_of_lookup_2|by apply Hkeep|done].
Qed.

Lemma assignment_sticky_witness :
  ∃ x', ((1, 1), x') ∈ reconcile [E1] [S14; S7] (reconcile [E1] [S7] enginelist_init)
        ∧ escanid x' = escanid (busy_slot 1 7 Scanning)
        ∧ frame ((1, 1), x') = frame ((1, 1), busy_slot 1 7 Scanning).
Proof.
  apply (assignment_sticky [E1] [S14; S7] _ (1, 1) (busy_slot 1 7 Scanning) S7).
  - apply (bool_decide_unpack _). vm_compute. exact I.
  - vm_compute. left.
  - done.
  - reflexivity.
  - right. left.
  - reflexivity.
  - by vm_compute.
  - reflexivity.
Defined.

Lemma assign_app pre post (c : cache) :
  assign (pre ++ post) c = assign post (assign pre c).
Proof. unfold assign. apply foldl_app. Qed.

(** X3. No free slot is wasted: after a pass, a scan that line 559 hands
    to [setenginescan] sits in a slot of its engine, or that engine has
    no slot with [escanid = 0] left. *)
Theorem no_free_slot_wasted engines scans (c : cache) s :
  s ∈ scans → 0 < scan_id s → 0 < scanengineid s → 3 ≤ stage_id s ≤ 6 →
  (∃ kv, kv ∈ reconcile engines scans c ∧ carries (scanengineid s) (scan_id s) kv)
  ∨ (∀ kv, kv ∈ reconcile engines scans c → ¬ carries (scanengineid s) 0 kv).
Proof.
  intros (pre & post & ->)%list_elem_of_split Hid He Hst.
  assert (effective s) as Heff by done.
  unfold reconcile. generalize (release (pre ++ s :: post) (grow engines (prune engines c))).
  intros m0. rewrite assign_app.
  change (assign (s :: post) (assign pre m0))
    with (assign post (assign_scan (assign pre m0) s)).
  set (m1 := assign pre m0). set (m2 := assign_scan m1 s). set (F := assign post m2).
  destruct (target s m1) as [i|] eqn:E.
  - left. pose proof E as (_ & a & Ha & Hea & _)%target_Some.
    assert (m2 !! i = Some (a.1, claim (scan_id s) (scanenginestatus (stage_id s)) a.2)) as Ha2.
    { unfold m2. rewrite assign_scan_target, E, list_lookup_alter_eq, Ha. by destruct a. }
    destruct (lookup_lt_is_Some_2 F i) as [f Hf].
    { unfold F. rewrite assign_length. by eapply lookup_lt_Some. }
    destruct (assign_future post m2 i _ f Ha2 Hf) as (Hfr & Hkeep & _).
    apply frame_eid in Hfr as [_ Hfe]. simpl in *.
    exists f. split; [by eapply list_elem_of_lookup_2|].
    split; [congruence|]. apply Hkeep. lia.
  - right. apply target_None in E as [?|Hno]; [done|].
    assert (m2 = m1) as Hm.
    { unfold m2. rewrite assign_scan_target.
      rewrite (proj2 (target_None s m1)); [done|by right]. }
    intros f [j Hf]%list_elem_of_lookup_1 [Hf1 Hf2].
    destruct (lookup_lt_is_Some_2 m2 j) as [a Ha].
    { rewrite <-(assign_length post m2). by eapply lookup_lt_Some. }
    destruct (assign_future post m2 j a f Ha Hf) as (Hfr & Hkeep & _).
    apply frame_eid in Hfr as [_ Hfe].
    rewrite Hm in Ha. destruct (Hno a) as [_ []]; [by eapply list_elem_of_lookup_2|].
    split; [congruence|].
    destruct (decide (escanid a.2 = 0)) as [?|Hnz]; [done|].
    specialize (Hkeep Hnz). congruence.
Qed.

Lemma no_free_slot_wasted_witness :
  (∃ kv, kv ∈ reconcile [E1_shrunk] [S7; S14] enginelist_init
         ∧ carries (scanengineid S14) (scan_id S14) kv)
  ∨ (∀ kv, kv ∈ reconcile [E1_shrunk] [S7; S14] enginelist_init
           → ¬ carries (scanengineid S14) 0 kv).
Proof.
  apply no_free_slot_wasted; [right; left|reflexivity|reflexivity|by vm_compute].
Defined.

(** The scans after the one that filled a slot leave the slot alone
    when they have other ids. *)
Lemma assign_other_ids post (m : cache) i a :
  m !! i = Some a → escanid a.2 ≠ 0 →
  (∀ s, s ∈ post → scan_id s ≠ escanid a.2) →
  assign post m !! i = Some a.
Proof.
  unfold assign. revert m.
  induction post as [|s post IH]; intros m Ha Hnz Hids; simpl; [done|].
  apply IH; [|done|].
  - destruct (assign_scan_entry m s i a Ha) as (a' & Ha' & [->|[Ht ->]]); [done|].
    apply target_Some in Ht as (_ & a0 & Ha0 & _ & [[Hs _]|[Hz _]]); simplify_eq.
    destruct (Hids s); [left|done].
  - intros s' Hs'. apply Hids. by right.
Qed.

(** X4. The state of a busy slot is the one of its scan: when no two
    scans of the list share an id, a slot that carries a scan after the
    pass is Queued when the scan is at stage 3 and Scanning when it is at
    stage 4, 5 or 6. *)
Theorem state_follows_stage engines scans (c : cache) k x s :
  reachable c → NoDup (scan_id <$> scans) →
  (k, x) ∈ reconcile engines scans c → escanid x ≠ 0 →
  s ∈ scans → scan_id s = escanid x →
  estate x = scanenginestatus (stage_id s)
  ∧ (stage_id s = 3 ∧ estate x = Queued ∨ 4 ≤ stage_id s ≤ 6 ∧ estate x = Scanning).
Proof.
  intros Hr Hnd Hin Hnz Hs Hid.
  destruct (reachable_inv _ (reachable_pass engines scans c Hr)) as (Hok & Hinv & Hu).
  rewrite Forall_forall in Hinv.
  destruct (Hinv _ Hin) as (_ & _ & _ & _ & Hbusy). simpl in Hbusy.
  destruct (Hbusy Hnz) as [Hepos Hidpos].
  (* the scan that backs the slot is [s] *)
  pose proof (assign_settled scans _ (release_settled scans
                (grow engines (prune engines c)))) as Hset.
  rewrite Forall_forall in Hset. destruct (Hset _ Hin) as [Hf|[? _]]; [|done].
  apply lfound_scan_true in Hf as (s' & Hs' & Hs1 & Hs2 & Hs3). simpl in *.
  assert (s' = s) as -> by (eapply NoDup_fmap_eq; [done..|congruence]).
  assert (effective s) as Heff by (unfold effective; split_and!; lia).
  assert (estate x = scanenginestatus (stage_id s)) as Hstate; last first.
  { split; [done|]. rewrite Hstate. unfold scanenginestatus.
    destruct (decide (stage_id s = 3)) as [H3|H3].
    - left. by rewrite bool_decide_eq_true_2.
    - right. rewrite bool_decide_eq_false_2 by done.
      rewrite !bool_decide_eq_true_2 by lia. split; [lia|done]. }
  (* split the loop at [s] *)
  pose proof Hs as (pre & post & Hsplit)%list_elem_of_split.
  assert (∀ s'', s'' ∈ post → scan_id s'' ≠ scan_id s) as Hpost.
  { intros s'' Hs'' Heq. rewrite Hsplit, fmap_app, fmap_cons in Hnd.
    apply NoDup_app in Hnd as (_ & _ & [Hn _]%NoDup_cons).
    apply Hn. rewrite <-Heq. by apply list_elem_of_fmap_2. }
  revert Hin Hok Hu. unfold reconcile.
  generalize (release scans (grow engines (prune engines c))). intros m0.
  rewrite Hsplit at 1 2 3. rewrite assign_app.
  change (assign (s :: post) (assign pre m0))
    with (assign post (assign_scan (assign pre m0) s)).
  set (m1 := assign pre m0). set (m2 := assign_scan m1 s). set (F := assign post m2).
  intros Hin Hok Hu.
  destruct (target s m1) as [j|] eqn:E.
  - pose proof E as (_ & a & Ha & Hea & _)%target_Some.
    assert (m2 !! j = Some (a.1, claim (scan_id s) (scanenginestatus (stage_id s)) a.2)) as Ha2.
    { unfold m2. rewrite assign_scan_target, E, list_lookup_alter_eq, Ha. by destruct a. }
    assert (F !! j = Some (a.1, claim (scan_id s) (scanenginestatus (stage_id s)) a.2)) as HF.
    { apply assign_other_ids; [done|simpl; lia|done]. }
    apply list_elem_of_lookup_2 in HF.
    assert (k = a.1) as ->.
    { apply (Hu _ _ Hin HF); simpl; congruence. }
    by rewrite (dict_ok_lookup _ _ _ _ Hok Hin HF).
  - exfalso. apply target_None in E as [?|Hno]; [done|].
    assert (m2 = m1) as Hm.
    { unfold m2. rewrite assign_scan_target.
      rewrite (proj2 (target_None s m1)); [done|by right]. }
    apply list_elem_of_lookup_1 in Hin as [i Hi].
    destruct (lookup_lt_is_Some_2 m2 i) as [a Ha].
    { rewrite <-(assign_length post m2). by eapply lookup_lt_Some. }
    destruct (assign_future post m2 i a _ Ha Hi) as (Hfr & Hkeep & _).
    apply frame_eid in Hfr as [_ Hfe]. simpl in *.
    rewrite Hm in Ha. destruct (Hno a) as [N1 N2]; [by eapply list_elem_of_lookup_2|].
    destruct (decide (escanid a.2 = 0)) as [Hz|Hnz'].
    + apply N2. split; congruence.
    + apply N1. specialize (Hkeep Hnz'). split; congruence.
Qed.

Lemma state_follows_stage_witness :
  estate (busy_slot 2 14 Queued) = scanenginestatus (stage_id S14)
  ∧ (stage_id S14 = 3 ∧ estate (busy_slot 2 14 Queued) = Queued
     ∨ 4 ≤ stage_id S14 ≤ 6 ∧ estate (busy_slot 2 14 Queued) = Scanning).
Proof.
  apply (state_follows_stage [E1] [S7; S14] enginelist_init (1, 2)).
  - apply reachable_init.
  - apply (bool_decide_unpack _). vm_compute. exact I.
  - vm_compute. right. left.
  - done.
  - right. left.
  - reflexivity.
Defined.

Lemma reconcile_busy_inv engines scans (c : cache) :
  dict_ok c → Forall busy_inv c → Forall busy_inv (reconcile engines scans c).
Proof.
  intros Hok Hc. unfold reconcile, assign. apply foldl_invariant.
  - unfold release. apply Forall_fmap.
    assert (Forall busy_inv (grow engines (prune engines c))) as Hg.
    { apply grow_Forall; [|by intros e idx _ _ ?].
      rewrite prune_filter by done. rewrite Forall_forall in *.
      intros kv [_ ?]%list_elem_of_filter. auto. }
    eapply Forall_impl; [done|]. intros [k x] Hx.
    unfold busy_inv, release_slot in *. simpl in *.
    by destruct (lfound_scan scans x).
  - intros c' s _ Hc'. rewrite assign_scan_target.
    destruct (target s c') as [i|] eqn:E; [|done].
    apply Forall_alter; [done|]. intros [k x] _ _ _. simpl.
    apply target_Some in E as ((_ & _ & Hst) & _).
    intros Hidle. apply scanenginestatus_Idle in Hidle. lia.
Qed.

Lemma reachable_busy_inv (c : cache) : reachable c → Forall busy_inv c.
Proof.
  induction 1 as [|engines scans c Hr IH]; [done|].
  apply reconcile_busy_inv; [|done]. by apply reachable_inv.
Qed.

(** X5. The engine metric has one sample per slot, in the order of the
    dictionary, labelled with the engine id and slot index of the key;
    its value is 0 and its state label Idle exactly for the slots that
    carry no scan, and 1 for the others. *)
Theorem utilization_flag engines scans (c : cache) :
  reachable c →
  length (engine_metrics (reconcile engines scans c))
  = length (reconcile engines scans c)
  ∧ ∀ i k x, reconcile engines scans c !! i = Some (k, x) →
      ∃ smp, engine_metrics (reconcile engines scans c) !! i = Some smp
        ∧ labels smp = [str k.1; ename x; str k.2; state_label (estate x)]
        ∧ (escanid x = 0 → estate x = Idle ∧ value smp = 0%Q)
        ∧ (escanid x ≠ 0 → estate x ≠ Idle ∧ value smp = 1%Q).
Proof.
  intros Hr. pose proof (reachable_pass engines scans c Hr) as Hr'.
  destruct (reachable_inv _ Hr') as (_ & Hinv & _).
  pose proof (reachable_busy_inv _ Hr') as Hbusy.
  unfold engine_metrics. split; [apply length_fmap|].
  intros i k x Hi. rewrite list_lookup_fmap, Hi. simpl.
  eexists. split; [done|].
  destruct (Forall_lookup_1 _ _ _ _ Hinv Hi) as (He & Hc & _ & Hfree & _).
  pose proof (Forall_lookup_1 _ _ _ _ Hbusy Hi) as Hb.
  unfold busy_inv in Hb. simpl in *. split_and!.
  - by rewrite He, Hc.
  - intros Hz. split; [auto|]. by rewrite bool_decide_eq_true_2 by auto.
  - intros Hnz. split; [auto|]. by rewrite bool_decide_eq_false_2 by auto.
Qed.

Lemma utilization_flag_witness :
  length (engine_metrics (reconcile [E1] [S7] enginelist_init))
  = length (reconcile [E1] [S7] enginelist_init)
  ∧ ∀ i k x, reconcile [E1] [S7] enginelist_init !! i = Some (k, x) →
      ∃ smp, engine_metrics (reconcile [E1] [S7] enginelist_init) !! i = Some smp
        ∧ labels smp = [str k.1; ename x; str k.2; state_label (estate x)]
        ∧ (escanid x = 0 → estate x = Idle ∧ value smp = 0%Q)
        ∧ (escanid x ≠ 0 → estate x ≠ Idle ∧ value smp = 1%Q).
Proof. apply utilization_flag. apply reachable_init. Defined.

(** ** More on the dates and the durations *)

Lemma has_dot_app s t : has_dot (s +:+ t) = has_dot s || has_dot t.
Proof. induction s as [|a s IH]; simpl; [done|]. by rewrite IH, orb_assoc. Qed.

(** X6. [processdatestring] gives a text with a decimal point, leaves a
    text that has one and null as they are, and changes nothing when it
    is applied a second time. *)
Theorem processdatestring_normal thedate :
  processdatestring (processdatestring thedate) = processdatestring thedate
  ∧ (∀ s, processdatestring thedate = Some s → has_dot s = true)
  ∧ (processdatestring thedate = None ↔ thedate = None)
  ∧ (∀ s, thedate = Some s → has_dot s = true → processdatestring thedate = Some s)
  ∧ (∀ s, thedate = Some s → has_dot s = false →
          processdatestring thedate = Some (s +:+ ".0")).
Proof.
  unfold processdatestring. destruct thedate as [s|]; [|by split_and!].
  destruct (has_dot s) eqn:E.
  - rewrite E. split_and!; [done| |done| |]; intros s' [= <-]; (done || congruence).
  - assert (has_dot (s +:+ ".0") = true) as E' by (rewrite has_dot_app; by rewrite orb_true_r).
    rewrite E'. split_and!; [done| |done| |]; intros s' [= <-]; (done || congruence).
Qed.

(** X7. The three phase samples exclude one another, and a scan with a
    phase sample has a full sample too; the pulling sample has the value
    of the full one. *)
Theorem phases_exclusive strptime s now d :
  classify strptime s now = Some d →
  (is_Some (pulling d) → queued d = None ∧ scanning d = None ∧ full d = pulling d)
  ∧ (is_Some (queued d) → pulling d = None ∧ scanning d = None ∧ is_Some (full d))
  ∧ (is_Some (scanning d) → pulling d = None ∧ queued d = None ∧ is_Some (full d)).
Proof.
  intros Hd.
  assert (∀ q, full d = Some q ↔ _) as Hfull by (intros q; apply (full_Some _ _ _ _ q Hd)).
  assert (∀ q, pulling d = Some q ↔ _) as Hpull by (intros q; apply (pulling_Some _ _ _ _ q Hd)).
  assert (∀ q, queued d = Some q ↔ _) as Hque by (intros q; apply (queued_Some _ _ _ _ q Hd)).
  assert (∀ q, scanning d = Some q ↔ _) as Hscan by (intros q; apply (scanning_Some _ _ _ _ q Hd)).
  assert (∃ t0, parse_date strptime (dateCreated s) = Some t0) as [t0 Ht0].
  { unfold classify in Hd. destruct (parse_date strptime (dateCreated s)); [eauto|done]. }
  split_and!.
  - intros [q Hq]. pose proof Hq as (Hst%pulling_stage & t & Ht & ->)%Hpull.
    split_and!.
    + apply eq_None_not_Some. intros [q' E]. apply Hque in E as (? & _). lia.
    + apply eq_None_not_Some. intros [q' E]. apply Hscan in E as (? & _). lia.
    + rewrite Hq. apply Hfull. split; [lia|]. by exists t.
  - intros [q (H3 & _)%Hque]. split_and!.
    + apply eq_None_not_Some. intros [q' E].
      apply Hpull in E as (?%pulling_stage & _). lia.
    + apply eq_None_not_Some. intros [q' E]. apply Hscan in E as (? & _). lia.
    + eexists. apply Hfull. split; [lia|]. by exists t0.
  - intros [q (H46 & _)%Hscan]. split_and!.
    + apply eq_None_not_Some. intros [q' E].
      apply Hpull in E as (?%pulling_stage & _). lia.
    + apply eq_None_not_Some. intros [q' E]. apply Hque in E as (? & _). lia.
    + eexists. apply Hfull. split; [lia|]. by exists t0.
Qed.

Lemma phases_exclusive_witness :
  (is_Some (pulling D14) → queued D14 = None ∧ scanning D14 = None ∧ full D14 = pulling D14)
  ∧ (is_Some (queued D14) → pulling D14 = None ∧ scanning D14 = None ∧ is_Some (full D14))
  ∧ (is_Some (scanning D14) → pulling D14 = None ∧ queued D14 = None ∧ is_Some (full D14)).
Proof. apply (phases_exclusive strptime_utc S14 eleven D14). reflexivity. Defined.

(** X8. A scan at a stage outside 1 to 6 and 10 (finished, canceled,
    failed, none) adds no duration sample; its creation date is parsed
    all the same, and the pass ends there when it does not parse. *)
Theorem other_stages_silent strptime s now :
  stage_id s ≠ 10 → ¬ 1 ≤ stage_id s ≤ 6 →
  (is_Some (parse_date strptime (dateCreated s)) →
   classify strptime s now = Some (Durations None None None None))
  ∧ (parse_date strptime (dateCreated s) = None → classify strptime s now = None).
Proof.
  intros H10 H16. unfold classify.
  destruct (parse_date strptime (dateCreated s)) as [t0|]; split; try done.
  intros _. f_equal.
  rewrite (bool_decide_eq_false_2 (stage_id s = 10)) by done.
  rewrite (bool_decide_eq_false_2 (stage_id s ∈ [1; 2; 10]))
    by (rewrite pulling_stage; lia).
  rewrite (bool_decide_eq_false_2 (stage_id s = 3)) by lia.
  destruct (bool_decide (1 ≤ stage_id s) && bool_decide (stage_id s ≤ 6)) eqn:E1.
  { apply andb_true_iff in E1 as [?%bool_decide_eq_true ?%bool_decide_eq_true]. lia. }
  destruct (bool_decide (4 ≤ stage_id s) && bool_decide (stage_id s ≤ 6)) eqn:E2.
  { apply andb_true_iff in E2 as [?%bool_decide_eq_true ?%bool_decide_eq_true]. lia. }
  done.
Qed.

Lemma other_stages_silent_witness :
  (is_Some (parse_date strptime_utc (dateCreated S15)) →
   classify strptime_utc S15 eleven = Some (Durations None None None None))
  ∧ (parse_date strptime_utc (dateCreated S15) = None →
     classify strptime_utc S15 eleven = None).
Proof. apply other_stages_silent; simpl; [done|lia]. Defined.

Lemma minutes_le (a b b' : Q) : (b <= b')%Q → ((a - b') / 60 <= (a - b) / 60)%Q.
Proof.
  intros H. unfold Qdiv. apply Qmult_le_compat_r; [|done].
  unfold Qminus. apply Qplus_le_r. by apply Qopp_le_compat.
Qed.

Lemma minutes_le_end (a a' b : Q) : (a <= a')%Q → ((a - b) / 60 <= (a' - b) / 60)%Q.
Proof.
  intros H. unfold Qdiv. apply Qmult_le_compat_r; [|done].
  unfold Qminus. by apply Qplus_le_l.
Qed.

(** X9. A phase never lasts longer than the whole: the queued sample is
    at most the full sample when the scan was queued no earlier than it
    was created, and so is the scanning sample when the engine started no
    earlier than the creation and the completion date, if it parses, is
    not after [now]. *)
Theorem phase_within_full strptime s now d t0 f :
  classify strptime s now = Some d →
  parse_date strptime (dateCreated s) = Some t0 → full d = Some f →
  (∀ q t, queued d = Some q → parse_date strptime (queuedOn s) = Some t →
          (t0 <= t)%Q → (q <= f)%Q)
  ∧ (∀ q t, scanning d = Some q →
        parse_date strptime (engineStartedOn s) = Some t → (t0 <= t)%Q →
        (∀ t', parse_date strptime (completedOn s) = Some t' → (t' <= now)%Q) →
        (q <= f)%Q).
Proof.
  intros Hd Ht0 Hf.
  apply (full_Some _ _ _ _ _ Hd) in Hf as (_ & t0' & Ht0' & ->). simplify_eq.
  split.
  - intros q t (_ & t' & Ht' & _ & ->)%(queued_Some _ _ _ _ _ Hd) Ht Hle.
    simplify_eq. by apply minutes_le.
  - intros q t (_ & t' & Ht' & _ & ->)%(scanning_Some _ _ _ _ _ Hd) Ht Hle Hend.
    simplify_eq. eapply Qle_trans; [|by apply minutes_le].
    apply minutes_le_end.
    destruct (parse_date strptime (completedOn s)) as [te|]; simpl; [by apply Hend|].
    apply Qle_refl.
Qed.

Lemma phase_within_full_witness :
  (∀ q t, queued D14 = Some q → parse_date strptime_utc (queuedOn S14) = Some t →
          (1580547600 <= t)%Q → (q <= 7200 # 60)%Q)
  ∧ (∀ q t, scanning D14 = Some q →
        parse_date strptime_utc (engineStartedOn S14) = Some t → (1580547600 <= t)%Q →
        (∀ t', parse_date strptime_utc (completedOn S14) = Some t' → (t' <= eleven)%Q) →
        (q <= 7200 # 60)%Q).
Proof.
  apply (phase_within_full strptime_utc S14 eleven D14); reflexivity.
Defined.

Lemma engine_labels_none engines i :
  (∀ e, e ∈ engines → engine_id e ≠ i) → engine_labels engines i = None.
Proof.
  induction engines as [|e engines IH]; intros Hno; simpl; [done|].
  rewrite bool_decide_eq_false_2 by (apply Hno; left).
  apply IH. intros e' He'. apply Hno. by right.
Qed.

Lemma engine_labels_found engines e :
  NoDup (engine_id <$> engines) → e ∈ engines →
  engine_labels engines (engine_id e)
  = Some [str (engine_id e); engine_name e; str (minLoc e); str (maxLoc e)].
Proof.
  induction engines as [|e' engines IH]; csimpl; intros Hnd He.
  { by apply elem_of_nil in He. }
  apply NoDup_cons in Hnd as [Hn Hnd].
  apply elem_of_cons in He as [->|He].
  - by rewrite bool_decide_eq_true_2.
  - rewrite bool_decide_eq_false_2; [by apply IH|].
    intros Heq. apply Hn. rewrite Heq. by apply list_elem_of_fmap_2.
Qed.

(** X10. A scan sample has five labels: the id of the scan and, when the
    engine member of the scan names an engine of the list, the id, name
    and LOC bounds of that engine; when the member is null or names no
    engine of the list, the defaults "0", "", "0" and "999999999". *)
Theorem scan_labels_resolved engines s :
  length (scan_labels engines s) = 5%nat
  ∧ (scan_engine s = None → scan_labels engines s = str (scan_id s) :: default_labels)
  ∧ (∀ i, scan_engine s = Some i → (∀ e, e ∈ engines → engine_id e ≠ i) →
          scan_labels engines s = str (scan_id s) :: default_labels)
  ∧ (∀ e, NoDup (engine_id <$> engines) → e ∈ engines →
          scan_engine s = Some (engine_id e) →
          scan_labels engines s
          = [str (scan_id s); str (engine_id e); engine_name e;
             str (minLoc e); str (maxLoc e)]).
Proof.
  unfold scan_labels. split_and!.
  - destruct (scan_engine s) as [i|]; simpl; [|done].
    induction engines as [|e engines IH]; simpl; [done|].
    by case_bool_decide.
  - by intros ->.
  - intros i -> Hno. simpl. by rewrite engine_labels_none.
  - intros e Hnd He ->. simpl. by rewrite engine_labels_found.
Qed.

(** ** Endpoints *)

Lemma startswith_app p s t : startswith p s = true → startswith p (s +:+ t) = true.
Proof.
  revert s. induction p as [|a p IH]; intros [|b s]; simpl; try done.
  intros [? ?]%andb_true_iff. apply andb_true_iff. auto.
Qed.

Lemma startswith_self p t : startswith p (p +:+ t) = true.
Proof. induction p as [|a p IH]; simpl; [done|]. by rewrite bool_decide_eq_true_2. Qed.

Lemma endswith_slash_split s : endswith_slash s = true → ∃ base, s = base +:+ "/".
Proof.
  induction s as [|a s IH]; simpl; [done|]. destruct s as [|b s].
  - intros ->%bool_decide_eq_true. by exists "".
  - intros [base ->]%IH. by exists (String a base).
Qed.

Lemma endswith_slash_app s : endswith_slash (s +:+ "/") = true.
Proof.
  induction s as [|a s IH]; simpl; [done|].
  destruct (s +:+ "/") eqn:E; [by destruct s|done].
Qed.

(** X11. Every endpoint has a scheme, [http://] when the host gives none,
    and ends in the path of the service after exactly the text of the
    host, one slash being added when the host does not end in one. *)
Theorem endpoint_shape lower hostname apipath :
  let host := with_scheme (lower hostname) in
  let url := sapipath_of lower hostname apipath in
  (startswith "http://" url || startswith "https://" url = true)
  ∧ (startswith "http://" (lower hostname) || startswith "https://" (lower hostname) = true
     → host = lower hostname)
  ∧ (startswith "http://" (lower hostname) || startswith "https://" (lower hostname) = false
     → host = "http://" +:+ lower hostname)
  ∧ (endswith_slash host = true → url = host +:+ apipath)
  ∧ (endswith_slash host = false → url = host +:+ "/" +:+ apipath).
Proof.
  intros host url. unfold url, sapipath_of. fold host.
  assert (startswith "http://" host || startswith "https://" host = true) as Hs.
  { unfold host, with_scheme.
    destruct (startswith "http://" (lower hostname)) eqn:E1; cbn [negb andb];
      [by rewrite E1|].
    destruct (startswith "https://" (lower hostname)) eqn:E2; cbn [negb andb].
    - rewrite E2. apply orb_true_r.
    - by rewrite startswith_self. }
  split_and!.
  - apply orb_true_iff in Hs. apply orb_true_iff. unfold with_path.
    destruct Hs as [Hs|Hs]; [left|right];
      destruct (endswith_slash host); by apply startswith_app.
  - unfold host, with_scheme. intros [->| ->]%orb_true_iff; cbn [negb andb]; [done|].
    by rewrite andb_false_r.
  - unfold host, with_scheme. intros [-> ->]%orb_false_iff. done.
  - unfold with_path. by intros ->.
  - unfold with_path. by intros ->.
Qed.

Lemma startswith_slash_added p s :
  startswith p (s +:+ "/") = true → startswith p s = true ∨ p = s +:+ "/".
Proof.
  revert s. induction p as [|a p IH]; intros s; simpl; [by left|].
  destruct s as [|b s]; simpl.
  - destruct p; [|by rewrite andb_false_r].
    rewrite andb_true_r. intros ->%bool_decide_eq_true. by right.
  - intros [->%bool_decide_eq_true [?| ->]%IH]%andb_true_iff.
    + left. by rewrite bool_decide_eq_true_2.
    + by right.
Qed.

Lemma app_slash_inj s t : s +:+ "/" = t +:+ "/" → s = t.
Proof.
  revert t. induction s as [|a s IH]; intros [|b t]; simpl; intros [= ]; subst.
  - done.
  - by destruct t.
  - by destruct s.
  - f_equal. by apply IH.
Qed.

Lemma scheme_slash_added s :
  endswith_slash s = false → s ≠ "" →
  with_scheme (s +:+ "/") = with_scheme s +:+ "/"
  ∧ endswith_slash (with_scheme s) = false.
Proof.
  intros Hs Hne.
  assert (∀ p, endswith_slash (p +:+ s) = false) as Hp.
  { intros p. induction p as [|a p IH]; simpl; [done|].
    destruct (p +:+ s) eqn:E; [|done]. destruct p; [by subst|done]. }
  assert (∀ p p', p = p' +:+ "/" → endswith_slash p' = true →
            startswith p (s +:+ "/") = startswith p s) as Hf.
  { intros p p' -> Hp'. destruct (startswith (p' +:+ "/") s) eqn:E1.
    - by apply startswith_app.
    - destruct (startswith (p' +:+ "/") (s +:+ "/")) eqn:E2; [|done].
      apply startswith_slash_added in E2 as [?|?%app_slash_inj]; congruence. }
  unfold with_scheme.
  rewrite (Hf "http://" "http:/"), (Hf "https://" "https:/") by done.
  destruct (negb (startswith "http://" s) && negb (startswith "https://" s)).
  - split; [reflexivity|apply (Hp "http://")].
  - done.
Qed.

(** X12. A host with or without a slash at its end has the same endpoint:
    for a lowered host text that is not empty and does not end in a
    slash, adding the slash changes nothing. *)
Theorem trailing_slash_ignored s apipath :
  endswith_slash s = false → s ≠ "" →
  with_path (with_scheme (s +:+ "/")) apipath = with_path (with_scheme s) apipath.
Proof.
  intros Hs Hne. destruct (scheme_slash_added s Hs Hne) as [-> Hnot].
  unfold with_path. rewrite endswith_slash_app, Hnot.
  generalize (with_scheme s). intros h.
  induction h as [|a h IH]; [done|].
  change (String a ((h +:+ "/") +:+ apipath) = String a (h +:+ "/" +:+ apipath)).
  by rewrite IH.
Qed.

Lemma trailing_slash_ignored_witness :
  with_path (with_scheme ("sast.example.org" +:+ "/")) engines_path
  = with_path (with_scheme "sast.example.org") engines_path.
Proof. apply trailing_slash_ignored; [reflexivity|done]. Defined.

(** ** Logon and the token *)

(** X13. [cxlogon] gives a token that is not empty only when the logon
    endpoint answered 200, 201 or 202 with an access token that is not
    empty; the token is the token type, [Bearer] when the reply names
    none, a blank and the access token. Any other status gives the empty
    token and no exception. *)
Theorem cxlogon_token lower post hostname username password :
  let r := post (sapipath_of lower hostname logon_path) username password in
  (∀ t, cxlogon lower post hostname username password = Some t → t ≠ "" →
     ∃ status_code sjson,
       r = response status_code (Some sjson)
       ∧ status_code ∈ [200; 201; 202]
       ∧ access_token sjson ≠ ""
       ∧ t = (if bool_decide (token_type sjson = "") then "Bearer" else token_type sjson)
             +:+ " " +:+ access_token sjson)
  ∧ (∀ status_code body, r = response status_code body →
       status_code ∉ [200; 201; 202] →
       cxlogon lower post hostname username password = Some "")
  ∧ (cxlogon lower post hostname username password = None ↔
       r = raised ∨ ∃ status_code, status_code ∈ [200; 201; 202]
                                    ∧ r = response status_code None).
Proof.
  intros r. unfold cxlogon. fold r. unfold accepted. split_and!.
  - intros t Ht Hne. destruct r as [|st body]; [done|].
    case_bool_decide as Hst; simpl in Ht; [|by simplify_eq].
    destruct body as [sjson|]; [|done].
    case_bool_decide; simplify_eq. by exists st, sjson.
  - intros st body -> Hst. by rewrite bool_decide_eq_false_2.
  - destruct r as [|st body]; [split; [by left|done]|].
    case_bool_decide as Hst; simpl.
    + destruct body as [sjson|].
      * split; [by case_bool_decide|]. intros [?|(? & _ & ?)]; done.
      * split; [|done]. intros _. right. by exists st.
    + split; [done|]. intros [?|(st' & Hst' & ?)]; [done|]. by simplify_eq.
Qed.

Lemma needs_logon_false now ts :
  needs_logon now ts = false ↔
  _token ts ≠ "" ∧ ¬ (_tokenread ts == 0)%Q ∧ (now - _tokenread ts <= 1400)%Q.
Proof.
  unfold needs_logon. rewrite !orb_false_iff, bool_decide_eq_false.
  destruct (Qlt_le_dec 1400 (now - _tokenread ts)) as [Hlt|Hle].
  - split; [by intros [_ ?]|]. intros (_ & _ & Hle). by apply Qlt_not_le in Hlt.
  - split.
    + intros [[? Hq] _]. split_and!; [done| |done].
      intros Heq%Qeq_bool_iff. congruence.
    + intros (? & Hq & _). split_and!; [done| |done].
      destruct (Qeq_bool (_tokenread ts) 0) eqn:E; [|done].
      by apply Qeq_bool_iff in E.
Qed.

(** X14. A token that was read at most 1400 seconds ago is given back as
    it is, without a logon; and a token that [gettoken] gives back, when
    it is not empty, was read at most 1400 seconds before the check or
    comes from the logon of this very call. *)
Theorem gettoken_cached now_check now_stamp logon ts :
  (_token ts ≠ "" → ¬ (_tokenread ts == 0)%Q → (now_check - _tokenread ts <= 1400)%Q →
   gettoken now_check now_stamp logon ts = Some (ts, _token ts))
  ∧ (∀ ts' t, gettoken now_check now_stamp logon ts = Some (ts', t) →
       t = _token ts'
       ∧ (t ≠ "" →
          ts' = ts ∧ (now_check - _tokenread ts <= 1400)%Q
          ∨ logon = Some t ∧ _tokenread ts' = now_stamp)).
Proof.
  unfold gettoken. split.
  - intros H1 H2 H3. by rewrite (proj2 (needs_logon_false now_check ts)).
  - intros ts' t. destruct (needs_logon now_check ts) eqn:E.
    + destruct logon as [t'|]; [|done]. intros [= <- <-]. split; [done|].
      intros Hne. right. simpl. by rewrite bool_decide_eq_true_2.
    + intros [= <- <-]. split; [done|]. intros _. left.
      by apply needs_logon_false in E as (_ & _ & ?).
Qed.

(** X15. [gettoken] calls [cxlogon] when there is no token, after
    [resettoken], and when the token is older than 1400 seconds; what it
    gives back is then what the logon gave, and the exception of the logon
    leaves it. A logon that gives the empty token wipes the old token and
    keeps the old time stamp, so that the next call logs on again
    whatever the clock reads. *)
Theorem gettoken_refresh now_check now_stamp logon ts :
  let refreshed :=
    (λ t, (TokenState t (if bool_decide (t ≠ "") then now_stamp else _tokenread ts), t))
      <$> logon in
  (_token ts = "" → gettoken now_check now_stamp logon ts = refreshed)
  ∧ ((1400 < now_check - _tokenread ts)%Q →
     gettoken now_check now_stamp logon ts = refreshed)
  ∧ gettoken now_check now_stamp logon (resettoken ts)
    = (λ t, (TokenState t (if bool_decide (t ≠ "") then now_stamp else 0%Q), t)) <$> logon
  ∧ (∀ n1 n2 l, needs_logon now_check ts = true → logon = Some "" →
       gettoken now_check now_stamp logon ts
       = Some (TokenState "" (_tokenread ts), "")
       ∧ gettoken n1 n2 l (TokenState "" (_tokenread ts))
         = (λ t, (TokenState t (if bool_decide (t ≠ "") then n2 else _tokenread ts), t)) <$> l).
Proof.
  intros refreshed. unfold gettoken, refreshed. split_and!.
  - intros Ht. unfold needs_logon. rewrite bool_decide_eq_true_2 by done.
    by destruct logon.
  - intros Hold. unfold needs_logon.
    destruct (Qlt_le_dec 1400 (now_check - _tokenread ts)) as [_|Hle].
    + rewrite orb_true_r. by destruct logon.
    + by apply Qlt_not_le in Hold.
  - simpl. by destruct logon.
  - intros n1 n2 l -> ->. split; [done|].
    simpl. by destruct l.
Qed.

(** X16. The log level that is kept is one of the levels of [logging] or
    100 (no log): a level from 1 to 50 is raised to the next multiple of
    10, any other one turns the log off; a second pre-processing changes
    nothing. *)
Theorem loglevel_rounded l :
  preprocess_loglevel l ∈ [10; 20; 30; 40; 50; 100]
  ∧ (1 ≤ l ≤ 50 →
     l ≤ preprocess_loglevel l < l + 10 ∧ (preprocess_loglevel l `mod` 10 = 0))
  ∧ (l ≤ 0 ∨ 50 < l → preprocess_loglevel l = 100)
  ∧ preprocess_loglevel (preprocess_loglevel l) = preprocess_loglevel l.
Proof.
  unfold preprocess_loglevel. rewrite !elem_of_cons, elem_of_nil.
  repeat case_bool_decide; simpl;
    (split_and!; [lia| |lia|done]); intros ?; (lia || (split; [lia|done])).
Qed.






(** ** Scrapes *)

Lemma cxget_received {A} lower apipath (get : string → string → reply (list A))
    hostname apitoken l :
  cxget lower apipath get hostname apitoken = Some l ↔
  received (get (sapipath_of lower hostname apipath) apitoken) l.
Proof.
  unfold cxget, received.
  destruct (get _ _) as [|status_code body]; [done|].
  destruct (accepted status_code); simpl; [done|]. split; congruence.
Qed.

Lemma gettoken_token now_check now_stamp logon ts ts' apitoken :
  gettoken now_check now_stamp logon ts = Some (ts', apitoken) → _token ts' = apitoken.
Proof.
  unfold gettoken. destruct (needs_logon now_check ts).
  - destruct logon; intros; by simplify_eq.
  - intros. by simplify_eq.
Qed.

(** X18. A scrape and the cache. The replies are those of the model: an
    exception, a refusal, a body that is not JSON, or a JSON list of the
    records of [engine] and [scan]. When the requests go through, the
    scrape is one reconcile pass over the engines and the scans the
    server sent, with the metrics of these lists, and it leaves the token
    globals of the last [gettoken]. When they do not, an exception
    leaves [collect] before the first loop: the cache is the cache
    before the scrape and no metrics are yielded. So a cache that was
    reachable stays reachable, with the invariant of the caches. *)
Theorem scrape_cache lower strptime g net clk ts (c : cache) :
  let r := collect_pass lower strptime g net clk ts c in
  (∀ ts' apitoken engines scans,
     answered lower g net clk ts ts' apitoken engines scans →
     r = (ts', reconcile engines scans c,
          (collect strptime (scan_clock clk) engines scans c).2))
  ∧ ((∃ ts' apitoken engines scans, answered lower g net clk ts ts' apitoken engines scans)
     ∨ (r.1.2 = c ∧ r.2 = None))
  ∧ (reachable c → reachable r.1.2 ∧ cache_inv r.1.2).
Proof.
  intros r.
  assert (∀ ts' apitoken engines scans,
     answered lower g net clk ts ts' apitoken engines scans →
     r = (ts', reconcile engines scans c,
          (collect strptime (scan_clock clk) engines scans c).2)) as Hyes.
  { intros ts' apitoken engines scans [He Hs]. apply cxget_received in Hs.
    unfold r, collect_pass, fetch_engines.
    destruct He as [(Ht & He%cxget_received & Hne)|(ts1 & tok1 & Ht1 & He1 & Ht2 & He2)].
    - rewrite Ht. unfold cxgetengines. rewrite He. cbn [from_option id].
      destruct engines as [|e engines]; [done|].
      unfold cxgetscansqueue. by rewrite Hs.
    - rewrite Ht1.
      assert (default [] (cxgetengines lower (get_engines1 net) (_hostname g) tok1) = [])
        as ->.
      { destruct (cxgetengines _ _ _ tok1) as [e|] eqn:E; [|done].
        apply cxget_received in E. simpl. by apply He1. }
      rewrite Ht2. apply cxget_received in He2. unfold cxgetengines. rewrite He2.
      unfold cxgetscansqueue. by rewrite Hs. }
  assert ((∃ ts' apitoken engines scans,
             answered lower g net clk ts ts' apitoken engines scans)
          ∨ (r.1.2 = c ∧ r.2 = None)) as Hor.
  { unfold r, collect_pass, fetch_engines, answered.
    destruct (gettoken (check1 clk) _ _ ts) as [[ts1 tok1]|] eqn:Ht1; [|by right].
    destruct (cxgetengines lower (get_engines1 net) (_hostname g) tok1)
      as [[|e engines]|] eqn:He1; cbn [from_option id].
    2: { destruct (cxgetscansqueue lower (get_scans net) (_hostname g) tok1)
           as [scans|] eqn:Hs; [|by right].
         left. exists ts1, tok1, (e :: engines), scans.
         split; [|by apply cxget_received].
         left. split_and!; [done|by apply cxget_received|done]. }
    all: destruct (gettoken (check2 clk) _ _ _) as [[ts3 tok2]|] eqn:Ht2; [|by right].
    all: destruct (cxgetengines lower (get_engines2 net) (_hostname g) tok2)
           as [engines|] eqn:He2; [|by right].
    all: destruct (cxgetscansqueue lower (get_scans net) (_hostname g) tok2)
           as [scans|] eqn:Hs; [|by right].
    all: left; exists ts3, tok2, engines, scans.
    all: split; [|by apply cxget_received].
    all: right; exists ts1, tok1; split_and!; [done| |done|by apply cxget_received].
    all: intros e' He'%cxget_received.
    all: unfold cxgetengines in He1; congruence. }
  split_and!; [done..|]. intros Hr.
  assert (reachable r.1.2) as Hr'.
  { destruct Hor as [(ts' & apitoken & engines & scans & Ha)|[-> _]]; [|done].
    rewrite (Hyes _ _ _ _ Ha). by constructor. }
  split; [done|by apply reachable_inv].
Qed.

Lemma scrape_cache_witness :
  answered lower_ascii G1 net_up clk11 token_init
    (TokenState "Bearer abc" eleven) "Bearer abc" [E1] [S7]
  ∧ collect_pass lower_ascii strptime_utc G1 net_up clk11 token_init enginelist_init
    = (TokenState "Bearer abc" eleven, reconcile [E1] [S7] enginelist_init,
       (collect strptime_utc (scan_clock clk11) [E1] [S7] enginelist_init).2).
Proof.
  assert (answered lower_ascii G1 net_up clk11 token_init
            (TokenState "Bearer abc" eleven) "Bearer abc" [E1] [S7]) as H.
  { split; [left|reflexivity]. split_and!; [reflexivity|reflexivity|done]. }
  split; [exact H|].
  exact (proj1 (scrape_cache lower_ascii strptime_utc G1 net_up clk11 token_init
                  enginelist_init) _ _ _ _ H).
Defined.

(** X19. When the first request for the engines brings a list that is not
    empty, the token is not reset and nothing of the second attempt is
    used: the scrape is the same whatever the second logon and the second
    request would give. *)
Theorem first_answer_suffices lower strptime g net clk ts (c : cache)
    ts1 apitoken e engines p2 ge2 k2 s2 :
  gettoken (check1 clk) (stamp1 clk)
    (cxlogon lower (post1 net) (_hostname g) (_username g) (_password g)) ts
  = Some (ts1, apitoken) →
  cxgetengines lower (get_engines1 net) (_hostname g) apitoken = Some (e :: engines) →
  collect_pass lower strptime g net clk ts c
  = collect_pass lower strptime g
      (Network (post1 net) (get_engines1 net) p2 ge2 (get_scans net))
      (Clocks (check1 clk) (stamp1 clk) k2 s2 (scan_clock clk)) ts c
  ∧ (collect_pass lower strptime g net clk ts c).1.1 = ts1.
Proof.
  intros Ht He. unfold collect_pass, fetch_engines. simpl.
  rewrite Ht, He. simpl.
  destruct (cxgetscansqueue lower (get_scans net) (_hostname g) apitoken); done.
Qed.

Lemma first_answer_suffices_witness :
  collect_pass lower_ascii strptime_utc G1 net_up clk11 token_init enginelist_init
  = collect_pass lower_ascii strptime_utc G1
      (Network (post1 net_up) (get_engines1 net_up) (post2 net_down)
               (get_engines2 net_down) (get_scans net_up))
      (Clocks (check1 clk11) (stamp1 clk11) 0%Q 0%Q (scan_clock clk11))
      token_init enginelist_init
  ∧ (collect_pass lower_ascii strptime_utc G1 net_up clk11 token_init
       enginelist_init).1.1 = TokenState "Bearer abc" eleven.
Proof.
  apply (first_answer_suffices lower_ascii strptime_utc G1 net_up clk11 token_init
           enginelist_init (TokenState "Bearer abc" eleven) "Bearer abc" E1 []);
    reflexivity.
Defined.

(** X20. When the server refuses both requests for the engines with a
    status other than 200, 201 and 202, and the other requests do not
    raise, the scrape runs with an empty engine list: the token is asked
    anew, and the cache is empty afterwards. *)
Theorem refused_engines_empty_cache lower strptime g net clk ts (c : cache)
    ts1 apitoken t2 scans :
  dict_ok c →
  gettoken (check1 clk) (stamp1 clk)
    (cxlogon lower (post1 net) (_hostname g) (_username g) (_password g)) ts
  = Some (ts1, apitoken) →
  (∀ url tok, ∃ st body, get_engines1 net url tok = response st body
                         ∧ st ∉ [200; 201; 202]) →
  cxlogon lower (post2 net) (_hostname g) (_username g) (_password g) = Some t2 →
  (∀ url tok, ∃ st body, get_engines2 net url tok = response st body
                         ∧ st ∉ [200; 201; 202]) →
  cxgetscansqueue lower (get_scans net) (_hostname g) t2 = Some scans →
  let r := collect_pass lower strptime g net clk ts c in
  r.1.2 = []
  ∧ r.1.1 = TokenState t2 (if bool_decide (t2 ≠ "") then stamp2 clk else 0%Q)
  ∧ r.2 = (collect strptime (scan_clock clk) [] scans c).2.
Proof.
  intros Hok Ht H1 Hl2 H2 Hs r.
  assert (∀ ge tok, (∀ url tok, ∃ st body, ge url tok = response st body
                                  ∧ st ∉ [200; 201; 202]) →
            cxgetengines lower ge (_hostname g) tok = Some []) as Hrefused.
  { intros ge tok Hge. unfold cxgetengines, cxget.
    destruct (Hge (sapipath_of lower (_hostname g) engines_path) tok)
      as (st & body & -> & Hst).
    unfold accepted. by rewrite bool_decide_eq_false_2. }
  unfold r, collect_pass, fetch_engines.
  rewrite Ht, (Hrefused _ _ H1). simpl. rewrite Hl2. simpl.
  rewrite (Hrefused _ _ H2), Hs. simpl. split_and!; [|done..].
  unfold reconcile. rewrite prune_nil_engines by done.
  unfold grow. simpl. apply assign_nil.
Qed.

Lemma refused_engines_empty_cache_witness :
  let r := collect_pass lower_ascii strptime_utc G1 net_refusing clk11 token_init
             (reconcile [E1] [S7] enginelist_init) in
  r.1.2 = []
  ∧ r.1.1 = TokenState "Bearer def"
              (if bool_decide ("Bearer def" ≠ "") then stamp2 clk11 else 0%Q)
  ∧ r.2 = (collect strptime_utc (scan_clock clk11) [] [S7]
             (reconcile [E1] [S7] enginelist_init)).2.
Proof.
  apply (refused_engines_empty_cache lower_ascii strptime_utc G1 net_refusing clk11
           token_init _ (TokenState "Bearer abc" eleven) "Bearer abc" "Bearer def" [S7]).
  - apply (bool_decide_unpack _). vm_compute. exact I.
  - reflexivity.
  - intros url tok. exists 401, None. split; [reflexivity|].
    apply (bool_decide_unpack _). vm_compute. exact I.
  - reflexivity.
  - intros url tok. exists 401, None. split; [reflexivity|].
    apply (bool_decide_unpack _). vm_compute. exact I.
  - reflexivity.
Defined.

(** X21. When the server cannot be reached for the engines, neither at the
    first request nor at the second, the exception of the second request
    leaves [collect]: no metric is yielded and the cache is as before;
    the token was wiped and asked anew in between. *)
Theorem unreachable_engines_keep_cache lower strptime g net clk ts (c : cache)
    ts1 apitoken t2 :
  gettoken (check1 clk) (stamp1 clk)
    (cxlogon lower (post1 net) (_hostname g) (_username g) (_password g)) ts
  = Some (ts1, apitoken) →
  (∀ url tok, get_engines1 net url tok = raised) →
  cxlogon lower (post2 net) (_hostname g) (_username g) (_password g) = Some t2 →
  (∀ url tok, get_engines2 net url tok = raised) →
  collect_pass lower strptime g net clk ts c
  = (TokenState t2 (if bool_decide (t2 ≠ "") then stamp2 clk else 0%Q), c, None).
Proof.
  intros Ht H1 Hl2 H2. unfold collect_pass, fetch_engines.
  rewrite Ht. unfold cxgetengines, cxget. rewrite H1. simpl.
  rewrite Hl2. simpl. by rewrite H2.
Qed.

Lemma unreachable_engines_keep_cache_witness :
  collect_pass lower_ascii strptime_utc G1 net_down clk11 token_init
    (reconcile [E1] [S7] enginelist_init)
  = (TokenState "Bearer def"
       (if bool_decide ("Bearer def" ≠ "") then stamp2 clk11 else 0%Q),
     reconcile [E1] [S7] enginelist_init, None).
Proof.
  apply (unreachable_engines_keep_cache lower_ascii strptime_utc G1 net_down clk11
           token_init _ (TokenState "Bearer abc" eleven) "Bearer abc" "Bearer def");
    reflexivity.
Defined.
